(** * py_lotto: the lotto number generator of [app.py]

    A shallow embedding of [is_valid] and [generate_lotto_numbers] and the
    properties of the combinations they produce.

    Python integers are modelled as [Z], Python lists as [list], the call
    [random.sample] as an oracle indexed by the number of calls made so far,
    and a raised exception as the left branch of a sum. *)

From Stdlib Require Ascii String.
From Stdlib Require Import ZArith List Bool Lia Permutation Sorted.
Import ListNotations.
Local Open Scope Z_scope.

(** ** Python built-ins used by the source *)

Module Py.

(** [len(l)] as a Python integer. *)
Definition len {A : Type} (l : list A) : Z := Z.of_nat (length l).

(** [x in l] on a list of integers. *)
Definition contains (l : list Z) (x : Z) : bool := existsb (Z.eqb x) l.

(** [a == b] on lists of integers. *)
Fixpoint list_eqb (a b : list Z) : bool :=
  match a, b with
  | [], [] => true
  | x :: a', y :: b' => (x =? y) && list_eqb a' b'
  | _, _ => false
  end.

(** [x in l] on a list of lists of integers. *)
Definition contains_list (l : list (list Z)) (x : list Z) : bool :=
  existsb (list_eqb x) l.

(** [range(lo, hi)]. *)
Definition range (lo hi : Z) : list Z :=
  map (fun i => lo + Z.of_nat i) (seq 0 (Z.to_nat (hi - lo))).

(** [sorted(l)] on integers: a stable insertion sort.  On integers every
    sorting algorithm returns the same list (see [sorted_unique]). *)
Fixpoint insert (x : Z) (l : list Z) : list Z :=
  match l with
  | [] => [x]
  | y :: l' => if x <=? y then x :: l else y :: insert x l'
  end.

Fixpoint sorted (l : list Z) : list Z :=
  match l with
  | [] => []
  | x :: l' => insert x (sorted l')
  end.

(** [sum(l)]. *)
Definition sum (l : list Z) : Z := fold_left Z.add l 0.

End Py.

Import Py.

(** ** [is_valid] *)

(** The body of [for i in range(1, len(numbers))], unrolled along the list:
    [prev] is [numbers[i - 1]], [rest] is [numbers[i:]] and [consecutive] the
    running counter.  [false] is the early [return False]. *)
Fixpoint consecutive_scan (prev consecutive : Z) (rest : list Z) : bool :=
  match rest with
  | [] => true
  | x :: rest' =>
      if x =? prev + 1 then
        let consecutive := consecutive + 1 in
        if consecutive >=? 3 then false
        else consecutive_scan x consecutive rest'
      else consecutive_scan x 1 rest'
  end.

Definition consecutive_rule (numbers : list Z) : bool :=
  match numbers with
  | [] => true
  | first :: rest => consecutive_scan first 1 rest
  end.

Definition odd_even_rule (numbers : list Z) : bool :=
  let odd := sum (map (fun _ => 1) (filter (fun n => n mod 2 =? 1) numbers)) in
  let even := 6 - odd in
  (odd =? 3) && (even =? 3).

Definition is_valid (numbers : list Z)
    (use_odd_even_rule use_consecutive_rule : bool) : bool :=
  let numbers := sorted numbers in
  if use_odd_even_rule && negb (odd_even_rule numbers) then false
  else if use_consecutive_rule && negb (consecutive_rule numbers) then false
  else true.

(** ** [random.sample] *)

(** [out] is a selection of [k] elements of [population] taken at pairwise
    different positions: what [random.sample(population, k)] returns. *)
Definition is_sample (population : list Z) (k : nat) (out : list Z) : Prop :=
  length out = k /\ exists rest, Permutation population (out ++ rest).

(** The random source.  [draw n population k] is what the call number [n]
    (counted from 0) of [random.sample] answers; the state of the module
    [random] is then the number of calls made so far. *)
Record Random : Type := {
  draw : nat -> list Z -> nat -> list Z;
  draw_sample : forall n population k,
      (k <= length population)%nat -> is_sample population k (draw n population k)
}.

Inductive exception : Type := ValueError.

(** [random.sample] raises [ValueError] when the sample is negative or
    larger than the population. *)
Definition random_sample (R : Random) (calls : nat) (population : list Z)
    (k : Z) : exception + list Z :=
  if (0 <=? k) && (k <=? len population)
  then inr (draw R calls population (Z.to_nat k))
  else inl ValueError.

(** A concrete random source: a linear congruential generator seeded by the
    call number picks an index, the element there is taken out of the pool. *)
Module Lcg.

Definition next (seed : Z) : Z := (seed * 1103515245 + 12345) mod 2147483648.

Definition remove_at (j : nat) (pool : list Z) : list Z :=
  firstn j pool ++ skipn (S j) pool.

Fixpoint pick (seed : Z) (pool : list Z) (k : nat) : list Z :=
  match k with
  | O => []
  | S k' =>
      let seed := next seed in
      let j := Z.to_nat ((seed / 65536) mod len pool) in
      nth j pool 0 :: pick seed (remove_at j pool) k'
  end.

Definition choose (n : nat) (population : list Z) (k : nat) : list Z :=
  pick (Z.of_nat n) population k.

Lemma remove_at_Permutation (pool : list Z) : forall j,
  (j < length pool)%nat ->
  Permutation pool (nth j pool 0 :: remove_at j pool) /\
  S (length (remove_at j pool)) = length pool.
Proof.
  unfold remove_at.
  induction pool as [|x pool IH]; intros j Hj; simpl in Hj; [lia|].
  destruct j as [|j].
  - simpl. split; reflexivity.
  - destruct (IH j) as [P L]; [lia|].
    change (firstn (S j) (x :: pool)) with (x :: firstn j pool).
    change (skipn (S (S j)) (x :: pool)) with (skipn (S j) pool).
    change (nth (S j) (x :: pool) 0) with (nth j pool 0).
    split.
    + simpl app. rewrite perm_swap. now apply perm_skip.
    + simpl app. simpl length. f_equal. exact L.
Qed.

Lemma pick_is_sample (k : nat) : forall seed pool,
  (k <= length pool)%nat -> is_sample pool k (pick seed pool k).
Proof.
  induction k as [|k IH]; intros seed pool Hk.
  - split; [reflexivity|]. now exists pool.
  - cbn [pick].
    set (j := Z.to_nat ((next seed / 65536) mod len pool)).
    assert (j < length pool)%nat as Hj.
    { subst j. unfold len.
      pose proof (Z.mod_pos_bound (next seed / 65536)
                    (Z.of_nat (length pool)) ltac:(lia)). lia. }
    destruct (remove_at_Permutation pool j Hj) as [P L].
    destruct (IH (next seed) (remove_at j pool)) as (Hl & rest & P');
      [lia|].
    split; [simpl; now rewrite Hl|].
    exists rest. eapply perm_trans; [exact P|]. simpl. now apply perm_skip.
Qed.

(** The generator is a random source. *)
Definition source : Random :=
  {| draw := choose;
     draw_sample := fun n population k => pick_is_sample k (Z.of_nat n) population |}.

End Lcg.

(** ** [generate_lotto_numbers] *)

(** The local variables of the function that change in the loop, and the
    state of the module [random]. *)
Record state : Type := mkState {
  results : list (list Z);
  trials_limit : Z;
  calls : nat
}.

(** How an iteration of the loop body ends: at its end or at a [continue],
    or at the [break]. *)
Inductive flow : Type := Continue | Break.

(** [l or []] *)
Definition or_empty (l : option (list Z)) : list Z :=
  match l with
  | Some l => l
  | None => []
  end.

Section Generator.

Variable R : Random.
Variable count : Z.
Variables use_odd_even_rule use_consecutive_rule : bool.
Variables fixed_numbers excluded_numbers : list Z.

(** [len(results) < count and trials_limit > 0] *)
Definition loop_test (s : state) : bool :=
  (len (results s) <? count) && (trials_limit s >? 0).

Definition available : list Z :=
  filter (fun n => negb (contains excluded_numbers n)) (range 1 46).

Definition candidates_pool : list Z :=
  filter (fun n => negb (contains fixed_numbers n)) available.

(** One pass through the body of the [while] loop. *)
Definition loop_body (s : state) : exception + (flow * state) :=
  let trials_limit := trials_limit s - 1 in
  let skip := mkState (results s) trials_limit (calls s) in
  if len fixed_numbers >? 6 then inr (Break, skip)
  else
    let remaining_count := 6 - len fixed_numbers in
    if remaining_count <? 0 then inr (Continue, skip)
    else if len candidates_pool <? remaining_count then inr (Continue, skip)
    else
      match random_sample R (calls s) candidates_pool remaining_count with
      | inl e => inl e
      | inr random_part =>
          let nums := sorted (fixed_numbers ++ random_part) in
          let calls := S (calls s) in
          if is_valid nums use_odd_even_rule use_consecutive_rule then
            if negb (contains_list (results s) nums)
            then inr (Continue, mkState (results s ++ [nums]) trials_limit calls)
            else inr (Continue, mkState (results s) trials_limit calls)
          else inr (Continue, mkState (results s) trials_limit calls)
      end.

(** The [while] loop.  [fuel] bounds the number of passes; the loop is run
    with [trials_limit] passes of fuel, which it never uses up before the
    test fails (see [while_loop_fuel]). *)
Fixpoint while_loop (fuel : nat) (s : state) : exception + state :=
  if loop_test s then
    match fuel with
    | O => inr s
    | S fuel' =>
        match loop_body s with
        | inl e => inl e
        | inr (Break, s') => inr s'
        | inr (Continue, s') => while_loop fuel' s'
        end
    end
  else inr s.

(** The states the loop goes through: the state at each evaluation of the
    loop test and the state a [break] leaves. *)
Fixpoint loop_states (fuel : nat) (s : state) : list state :=
  s ::
  if loop_test s then
    match fuel with
    | O => []
    | S fuel' =>
        match loop_body s with
        | inl _ => []
        | inr (Break, s') => [s']
        | inr (Continue, s') => loop_states fuel' s'
        end
    end
  else [].

Definition initial : state := mkState [] 10000 0.

Definition run : exception + state :=
  while_loop (Z.to_nat (trials_limit initial)) initial.

Definition run_states : list state :=
  loop_states (Z.to_nat (trials_limit initial)) initial.

End Generator.

Definition generate_lotto_numbers (R : Random) (count : Z)
    (use_odd_even_rule use_consecutive_rule : bool)
    (fixed_numbers excluded_numbers : option (list Z))
  : exception + list (list Z) :=
  let fixed_numbers := or_empty fixed_numbers in
  let excluded_numbers := or_empty excluded_numbers in
  match run R count use_odd_even_rule use_consecutive_rule
            fixed_numbers excluded_numbers with
  | inl e => inl e
  | inr s => inr (results s)
  end.

(** ** Python strings *)

(** A string is a [String.string]; a character is a code point below 256. *)
Module Str.

Import Ascii String.

Definition code (c : ascii) : Z := Z.of_N (N_of_ascii c).

Definition space : ascii := " "%char.
Definition comma : ascii := ","%char.

(** The decimal digits [0] to [9]. *)
Definition is_decimal (c : ascii) : bool := (48 <=? code c) && (code c <=? 57).

(** The characters [str.isdigit] takes for digits: the decimal digits and
    the superscripts two, three and one (code points 178, 179 and 185). *)
Definition is_digit (c : ascii) : bool :=
  is_decimal c || (code c =? 178) || (code c =? 179) || (code c =? 185).

Fixpoint all (f : ascii -> bool) (s : string) : bool :=
  match s with
  | EmptyString => true
  | String c s' => f c && all f s'
  end.

(** [s.isdigit()]: every character is a digit and there is at least one. *)
Definition isdigit (s : string) : bool :=
  match s with
  | EmptyString => false
  | String _ _ => all is_digit s
  end.

(** [text.replace(old, "")] for a single character [old]. *)
Fixpoint remove (old : ascii) (text : string) : string :=
  match text with
  | EmptyString => EmptyString
  | String c text' =>
      if Ascii.eqb c old then remove old text'
      else String c (remove old text')
  end.

(** [text.split(sep)] for a single character [sep]. *)
Fixpoint split (sep : ascii) (text : string) : list string :=
  match text with
  | EmptyString => [EmptyString]
  | String c text' =>
      if Ascii.eqb c sep then EmptyString :: split sep text'
      else match split sep text' with
           | part :: parts => String c part :: parts
           | [] => [String c EmptyString]
           end
  end.

(** The number that a string of decimal digits writes, after [acc]. *)
Fixpoint digits_value (acc : Z) (s : string) : Z :=
  match s with
  | EmptyString => acc
  | String c s' => digits_value (10 * acc + (code c - 48)) s'
  end.

(** The limit on the length of a string that [int] converts: none up to
    640 characters, and none when [max_str_digits] is 0. *)
Definition over_limit (max_str_digits : Z) (s : string) : bool :=
  (640 <? len (list_ascii_of_string s)) && (0 <? max_str_digits)
  && (max_str_digits <? len (list_ascii_of_string s)).

(** [int(s)] on a string of digit characters, as [isdigit] leaves them (the
    source converts no other): [ValueError] on a superscript and beyond
    the limit [sys.get_int_max_str_digits()]. *)
Definition int (max_str_digits : Z) (s : string) : exception + Z :=
  match s with
  | EmptyString => inl ValueError
  | String _ _ =>
      if all is_decimal s && negb (over_limit max_str_digits s)
      then inr (digits_value 0 s)
      else inl ValueError
  end.

End Str.

(** ** [parse_numbers] *)

(** [set(nums)], listed in some order: the source sorts it at once. *)
Definition set_of (nums : list Z) : list Z := nodup Z.eq_dec nums.

Section ParseNumbers.

(** The setting [sys.get_int_max_str_digits()] of the interpreter: 4300
    unless changed, 0 where the interpreter has no limit. *)
Variable max_str_digits : Z.

(** The loop [for part in ...] of [parse_numbers], from [nums] on. *)
Fixpoint parse_parts (parts : list String.string) (nums : list Z)
  : exception + list Z :=
  match parts with
  | [] => inr nums
  | part :: parts' =>
      if Str.isdigit part then
        match Str.int max_str_digits part with
        | inl e => inl e
        | inr n =>
            if (1 <=? n) && (n <=? 45) then parse_parts parts' (nums ++ [n])
            else parse_parts parts' nums
        end
      else parse_parts parts' nums
  end.

Definition parse_numbers (text : String.string) : exception + list Z :=
  match parse_parts (Str.split Str.comma (Str.remove Str.space text)) [] with
  | inl e => inl e
  | inr nums => inr (sorted (set_of nums))
  end.

End ParseNumbers.

(** ** [main] *)

(** What a run of the script shows that depends on the widgets: the calls
    of [st.error], [st.warning], [st.success] and the [markdown] of a set
    title and of a number in its column.  The calls that lay out fixed text
    take no value of the run and give none back; they are left out. *)
Inductive shown : Type :=
| conflict_error (numbers : list Z)
| too_many_error
| no_result_warning
| success (n : Z)
| set_title (idx : Z)
| number (column : Z) (n : Z).

(** What a run of the script can raise: an exception of the parser or the
    generator, or the [IndexError] of [cols[i]]. *)
Inductive fault : Type :=
| Raised (e : exception)
| IndexError.

(** A piece of the script: what it has shown, and its value or the fault
    that ended it. *)
Definition ui (A : Type) : Type := list shown * (fault + A).

Definition ui_ret {A : Type} (a : A) : ui A := ([], inr a).

Definition ui_bind {A B : Type} (x : ui A) (f : A -> ui B) : ui B :=
  match x with
  | (out, inl e) => (out, inl e)
  | (out, inr a) => let (out', r) := f a in (out ++ out', r)
  end.

Definition show (e : shown) : ui unit := ([e], inr tt).

Definition raise {A : Type} (e : fault) : ui A := ([], inl e).

Definition call {A : Type} (x : exception + A) : ui A :=
  match x with
  | inl e => raise (Raised e)
  | inr a => ui_ret a
  end.

Declare Scope ui_scope.
Delimit Scope ui_scope with ui.
Notation "x <- a ;; b" := (ui_bind a (fun x => b))
  (at level 61, a at next level, right associativity) : ui_scope.
Notation "a ;; b" := (ui_bind a (fun _ => b))
  (at level 61, right associativity) : ui_scope.

(** [for i, n in enumerate(nums): cols[i].markdown(n)] with the 6 columns
    of [st.columns(6)], from the index [i] on. *)
Fixpoint show_numbers (i : Z) (nums : list Z) : ui unit :=
  match nums with
  | [] => ui_ret tt
  | n :: nums' =>
      if i <? 6 then (show (number i n) ;; show_numbers (i + 1) nums')%ui
      else raise IndexError
  end.

(** [for idx, nums in enumerate(results, start=1)], from [idx] on. *)
Fixpoint show_sets (idx : Z) (results : list (list Z)) : ui unit :=
  match results with
  | [] => ui_ret tt
  | nums :: results' =>
      (show (set_title idx) ;; show_numbers 0 nums ;;
       show_sets (idx + 1) results')%ui
  end.

(** [conflict = set(fixed_numbers) & set(excluded_numbers)] and its report. *)
Definition conflict (fixed_numbers excluded_numbers : list Z) : list Z :=
  set_of (filter (contains excluded_numbers) fixed_numbers).

Definition show_conflict (fixed_numbers excluded_numbers : list Z) : ui unit :=
  let conflict := conflict fixed_numbers excluded_numbers in
  match conflict with
  | [] => ui_ret tt
  | _ :: _ => show (conflict_error (sorted conflict))
  end.

(** The script, given what its widgets return: the slider [games], the two
    checkboxes, the two text inputs and the button. *)
Definition main (R : Random) (max_str_digits : Z) (games : Z)
    (use_odd_even_rule use_consecutive_rule : bool)
    (fixed_input excluded_input : String.string) (button : bool) : ui unit :=
  (fixed_numbers <- call (parse_numbers max_str_digits fixed_input) ;;
   excluded_numbers <- call (parse_numbers max_str_digits excluded_input) ;;
   show_conflict fixed_numbers excluded_numbers ;;
   if button then
     if len fixed_numbers >? 6 then show too_many_error
     else
       results <- call (generate_lotto_numbers R games use_odd_even_rule
                          use_consecutive_rule (Some fixed_numbers)
                          (Some excluded_numbers)) ;;
       match results with
       | [] => show no_result_warning
       | _ :: _ => show (success (len results)) ;; show_sets 1 results
       end
   else ui_ret tt)%ui.

(** ** The passes of the loop *)

Section Passes.

Variable count : Z.
Variables use_odd_even_rule use_consecutive_rule : bool.
Variables fixed_numbers excluded_numbers : list Z.

Local Abbreviation pool := (candidates_pool fixed_numbers excluded_numbers).

(** The state after a pass that drew nothing, and after a pass that drew
    and left [res] in [results]. *)
Definition skipped (s : state) : state :=
  mkState (results s) (trials_limit s - 1) (calls s).

Definition drawn (s : state) (res : list (list Z)) : state :=
  mkState res (trials_limit s - 1) (S (calls s)).

(** The four ways through the loop body; none raises. *)
Inductive body_outcome (s : state) : exception + (flow * state) -> Prop :=
| outcome_break :
    6 < len fixed_numbers ->
    body_outcome s (inr (Break, skipped s))
| outcome_short :
    len fixed_numbers <= 6 ->
    len pool < 6 - len fixed_numbers ->
    body_outcome s (inr (Continue, skipped s))
| outcome_reject :
    len fixed_numbers <= 6 ->
    6 - len fixed_numbers <= len pool ->
    body_outcome s (inr (Continue, drawn s (results s)))
| outcome_accept random_part :
    len fixed_numbers <= 6 ->
    6 - len fixed_numbers <= len pool ->
    is_sample pool (Z.to_nat (6 - len fixed_numbers)) random_part ->
    is_valid (sorted (fixed_numbers ++ random_part))
      use_odd_even_rule use_consecutive_rule = true ->
    ~ In (sorted (fixed_numbers ++ random_part)) (results s) ->
    body_outcome s
      (inr (Continue,
            drawn s (results s ++ [sorted (fixed_numbers ++ random_part)]))).

(** What the loop appends to [results]: the fixed numbers and a sample of
    the candidate pool, sorted. *)
Definition combination_of (c : list Z) : Prop :=
  len fixed_numbers <= 6 /\
  exists random_part,
    is_sample pool (Z.to_nat (6 - len fixed_numbers)) random_part /\
    c = sorted (fixed_numbers ++ random_part).

(** What holds of the state at every evaluation of the loop test. *)
Definition invariant (s : state) : Prop :=
  Forall combination_of (results s) /\
  NoDup (results s) /\
  len (results s) <= Z.max 0 count /\
  0 <= trials_limit s <= 10000 /\
  Z.of_nat (calls s) <= 10000 - trials_limit s.

End Passes.

(** ** The words of the specification *)

(** The number of odd members of a combination. *)
Definition odd_count (c : list Z) : nat := length (filter Z.odd c).

(** Three members of [c] form a run of consecutive integers. *)
Definition has_run3 (c : list Z) : Prop :=
  exists x, In x c /\ In (x + 1) c /\ In (x + 2) c.

(** The number of passes through the loop body in a run: each state of the
    run after the first is left by one pass. *)
Definition attempts (R : Random) (count : Z)
    (use_odd_even_rule use_consecutive_rule : bool)
    (fixed_numbers excluded_numbers : list Z) : nat :=
  pred (length (run_states R count use_odd_even_rule use_consecutive_rule
                  fixed_numbers excluded_numbers)).

(** Two combinations are identical as sets of numbers. *)
Definition same_set (a b : list Z) : Prop := forall x, In x a <-> In x b.

(** No two combinations of a result set are identical as sets. *)
Definition distinct_sets (res : list (list Z)) : Prop :=
  forall i j a b,
    nth_error res i = Some a -> nth_error res j = Some b ->
    same_set a b -> i = j.

(** The number of even members of a combination. *)
Definition even_count (c : list Z) : nat := length (filter Z.even c).

(** Three neighbours of [l] are consecutive integers. *)
Definition has_adjacent_run3 (l : list Z) : Prop :=
  exists before x after, l = before ++ x :: x + 1 :: x + 2 :: after.

(** [a] is an initial part of [b]. *)
Definition prefix_of {A : Type} (a b : list A) : Prop :=
  exists rest, b = a ++ rest.

(** The characters of a string. *)
Definition chars (s : String.string) : list Ascii.ascii :=
  String.list_ascii_of_string s.

(** The parts of a text that [parse_numbers] goes through. *)
Definition parts_of (text : String.string) : list String.string :=
  Str.split Str.comma (Str.remove Str.space text).

(** The part passes [isdigit] and [int] raises on it. *)
Definition raises_on (max_str_digits : Z) (part : String.string) : bool :=
  Str.isdigit part &&
  negb (Str.all Str.is_decimal part && negb (Str.over_limit max_str_digits part)).

(** The part writes the number [n] in decimal digits. *)
Definition writes (part : String.string) (n : Z) : Prop :=
  Str.isdigit part = true /\ Str.digits_value 0 part = n.

(** A set as the script shows it: its title and its numbers, each in the
    column of its position; and the sets of a result, titled from 1. *)
Definition cells (nums : list Z) : list shown :=
  map (fun p => number (fst p) (snd p)) (combine (range 0 (len nums)) nums).

Definition tickets (res : list (list Z)) : list shown :=
  flat_map (fun p => set_title (fst p) :: cells (snd p))
    (combine (range 1 (1 + len res)) res).

(** What the script shows when both inputs parse. *)
Definition output (F E : list Z) (button : bool) (res : list (list Z))
  : list shown :=
  fst (show_conflict F E) ++
  if button then
    if 6 <? len F then [too_many_error]
    else match res with
         | [] => [no_result_warning]
         | _ :: _ => success (len res) :: tickets res
         end
  else [].

(** * Properties *)

(** ** The built-ins *)

Section PyFacts.

Lemma len_nonneg {A : Type} (l : list A) : 0 <= len l.
Proof. unfold len. lia. Qed.

Lemma len_app {A : Type} (a b : list A) : len (a ++ b) = len a + len b.
Proof. unfold len. rewrite length_app. lia. Qed.

Lemma contains_In (l : list Z) (x : Z) : contains l x = true <-> In x l.
Proof.
  unfold contains. rewrite existsb_exists. split.
  - intros (y & Hy & E). apply Z.eqb_eq in E. now subst.
  - intros H. exists x. split; [assumption | apply Z.eqb_refl].
Qed.

Lemma contains_not_In (l : list Z) (x : Z) : contains l x = false <-> ~ In x l.
Proof.
  rewrite <- contains_In. destruct (contains l x); split; congruence.
Qed.

Lemma list_eqb_eq (a b : list Z) : list_eqb a b = true <-> a = b.
Proof.
  revert b. induction a as [|x a IH]; intros [|y b]; simpl;
    try (split; congruence).
  rewrite andb_true_iff, Z.eqb_eq, IH. split.
  - intros [-> ->]. reflexivity.
  - intros E. injection E. auto.
Qed.

Lemma contains_list_In (l : list (list Z)) (x : list Z) :
  contains_list l x = true <-> In x l.
Proof.
  unfold contains_list. rewrite existsb_exists. split.
  - intros (y & Hy & E). apply list_eqb_eq in E. now subst.
  - intros H. exists x. split; [assumption | now apply list_eqb_eq].
Qed.

Lemma range_In (lo hi x : Z) : In x (range lo hi) <-> lo <= x < hi.
Proof.
  unfold range. rewrite in_map_iff. split.
  - intros (i & <- & Hi). apply in_seq in Hi. lia.
  - intros H. exists (Z.to_nat (x - lo)). split; [lia | apply in_seq; lia].
Qed.

Lemma range_NoDup (lo hi : Z) : NoDup (range lo hi).
Proof.
  unfold range. apply Finite.Injective_map_NoDup; [| apply seq_NoDup].
  intros i j. lia.
Qed.

Lemma sum_ones_from (l : list Z) (acc : Z) :
  fold_left Z.add (map (fun _ => 1) l) acc = acc + len l.
Proof.
  revert acc. induction l as [|x l IH]; intros acc; unfold len in *; simpl.
  - lia.
  - rewrite IH. lia.
Qed.

Lemma sum_ones (l : list Z) : sum (map (fun _ => 1) l) = len l.
Proof. unfold sum. now rewrite sum_ones_from. Qed.

Lemma insert_Permutation (x : Z) (l : list Z) : Permutation (x :: l) (insert x l).
Proof.
  induction l as [|y l IH]; simpl; [reflexivity|].
  destruct (x <=? y); [reflexivity|].
  rewrite perm_swap. now apply perm_skip.
Qed.

Lemma sorted_Permutation (l : list Z) : Permutation l (sorted l).
Proof.
  induction l as [|x l IH]; simpl; [reflexivity|].
  rewrite <- insert_Permutation. now apply perm_skip.
Qed.

Lemma sorted_In (l : list Z) (x : Z) : In x (sorted l) <-> In x l.
Proof.
  split; apply Permutation_in;
    [symmetry |]; apply sorted_Permutation.
Qed.

Lemma sorted_length (l : list Z) : length (sorted l) = length l.
Proof. symmetry. apply Permutation_length, sorted_Permutation. Qed.

Lemma insert_ascending (x : Z) (l : list Z) :
  StronglySorted Z.le l -> StronglySorted Z.le (insert x l).
Proof.
  induction 1 as [|y l Hl IH Hy]; simpl.
  - repeat constructor.
  - destruct (Z.leb_spec x y).
    + constructor; [now constructor|].
      constructor; [assumption|].
      eapply Forall_impl; [| exact Hy]. simpl. intros; lia.
    + constructor; [assumption|].
      eapply Permutation_Forall; [apply insert_Permutation|].
      constructor; [lia | assumption].
Qed.

Lemma sorted_ascending (l : list Z) : StronglySorted Z.le (sorted l).
Proof.
  induction l; simpl; [constructor | now apply insert_ascending].
Qed.

(** Two ascending lists with the same elements, counted with repetition,
    are the same list. *)
Lemma ascending_unique (a b : list Z) :
  StronglySorted Z.le a -> StronglySorted Z.le b -> Permutation a b -> a = b.
Proof.
  intros Ha. revert b. induction Ha as [|x a Ha IH Hx]; intros b Hb P.
  - apply Permutation_nil in P. now subst.
  - destruct Hb as [|y b Hb Hy].
    + symmetry in P. apply Permutation_nil in P. discriminate.
    + assert (x = y) as ->.
      { assert (In x (y :: b)) as Ix
          by (eapply Permutation_in; [exact P | now left]).
        assert (In y (x :: a)) as Iy
          by (eapply Permutation_in; [symmetry; exact P | now left]).
        rewrite Forall_forall in Hx, Hy.
        destruct Ix as [-> | Ix]; [reflexivity|].
        destruct Iy as [<- | Iy]; [reflexivity|].
        specialize (Hx _ Iy). specialize (Hy _ Ix). lia. }
      f_equal. apply IH; [assumption|].
      eapply Permutation_cons_inv; exact P.
Qed.

(** [sorted] does not depend on the order of its argument. *)
Lemma sorted_unique (a b : list Z) : Permutation a b -> sorted a = sorted b.
Proof.
  intros P. apply ascending_unique; try apply sorted_ascending.
  rewrite <- !sorted_Permutation. exact P.
Qed.

Lemma sorted_fixpoint (l : list Z) : StronglySorted Z.le l -> sorted l = l.
Proof.
  intros H. apply ascending_unique;
    [apply sorted_ascending | assumption |].
  symmetry. apply sorted_Permutation.
Qed.

End PyFacts.

(** ** The validator *)

Section Validator.

Lemma odd_test (n : Z) : (n mod 2 =? 1) = Z.odd n.
Proof. rewrite Zmod_odd. now destruct (Z.odd n). Qed.

Lemma odd_even_rule_count (numbers : list Z) :
  odd_even_rule numbers = true <-> odd_count numbers = 3%nat.
Proof.
  unfold odd_even_rule, odd_count. rewrite sum_ones.
  rewrite (filter_ext _ _ odd_test). unfold len.
  rewrite andb_true_iff, !Z.eqb_eq. lia.
Qed.

Lemma odd_count_Permutation (a b : list Z) :
  Permutation a b -> odd_count a = odd_count b.
Proof.
  unfold odd_count.
  induction 1 as [| x a b _ IH | x y a | a b c _ IHab _ IHbc]; simpl.
  - reflexivity.
  - destruct (Z.odd x); simpl; congruence.
  - destruct (Z.odd x), (Z.odd y); reflexivity.
  - congruence.
Qed.

Lemma has_run3_same_members (a b : list Z) :
  (forall x, In x a <-> In x b) -> has_run3 a <-> has_run3 b.
Proof.
  intros E. unfold has_run3. split; intros (x & H0 & H1 & H2); exists x.
  - now rewrite <- !E.
  - now rewrite !E.
Qed.

(** A number below all others that does not start a run can be dropped. *)
Lemma has_run3_cons (a : Z) (l : list Z) :
  (forall z, In z l -> a < z) ->
  (In (a + 1) l -> In (a + 2) l -> False) ->
  has_run3 (a :: l) <-> has_run3 l.
Proof.
  intros Hlt Hno. split.
  - intros (x & H0 & H1 & H2). exists x.
    destruct H0 as [<- | H0].
    + destruct H1 as [H1 | H1]; [lia|].
      destruct H2 as [H2 | H2]; [lia|]. now destruct Hno.
    + pose proof (Hlt _ H0).
      destruct H1 as [H1 | H1]; [lia|].
      destruct H2 as [H2 | H2]; [lia|]. auto.
  - intros (x & H0 & H1 & H2). exists x. simpl. auto.
Qed.

Lemma ascending_strict (l : list Z) :
  StronglySorted Z.le l -> NoDup l -> StronglySorted Z.lt l.
Proof.
  induction 1 as [|x l Hl IH Hx]; intros D; [constructor|].
  inversion D as [|? ? Hin D']; subst.
  constructor; [auto|].
  rewrite Forall_forall in *. intros y Hy.
  specialize (Hx y Hy). assert (x <> y) by congruence. lia.
Qed.

(** What the scan answers, with the counter at 1 and at 2: with the counter
    at 2 the element before [prev] is [prev - 1]. *)
Lemma consecutive_scan_spec (rest : list Z) : forall prev,
  StronglySorted Z.lt (prev :: rest) ->
  (consecutive_scan prev 1 rest = true <-> ~ has_run3 (prev :: rest)) /\
  (consecutive_scan prev 2 rest = true <->
   ~ has_run3 (prev - 1 :: prev :: rest)).
Proof.
  induction rest as [|x rest IH]; intros prev S.
  - simpl. split; split; trivial; intros _ (y & H0 & H1 & H2); simpl in *;
      intuition lia.
  - inversion S as [|? ? S' Hprev]; subst.
    pose proof (IH x S') as [IH1 IH2].
    inversion S' as [|? ? _ Hx]; subst.
    rewrite Forall_forall in Hprev, Hx.
    assert (prev < x) as Hpx by (apply Hprev; now left).
    assert (forall z, In z (x :: rest) -> x <= z) as Hlow.
    { intros z [<- | Hz]; [lia | specialize (Hx z Hz); lia]. }
    simpl consecutive_scan. destruct (Z.eqb_spec x (prev + 1)) as [-> | Hne].
    + split.
      * change (1 + 1 >=? 3) with false. cbv iota.
        change (1 + 1) with 2. rewrite IH2.
        replace (prev + 1 - 1) with prev by lia. reflexivity.
      * change (2 + 1 >=? 3) with true. cbv iota. split; [discriminate|].
        intros H. exfalso. apply H. exists (prev - 1). simpl.
        repeat split; [left | right; left | right; right; left]; lia.
    + assert (has_run3 (prev :: x :: rest) <-> has_run3 (x :: rest)) as E1.
      { apply has_run3_cons; [exact Hprev|].
        intros H _. apply Hlow in H. lia. }
      split.
      * now rewrite IH1, E1.
      * rewrite IH1, <- E1. apply not_iff_compat. symmetry.
        apply has_run3_cons.
        -- intros z [<- | Hz]; [lia | specialize (Hprev z Hz); lia].
        -- intros _ [H | H]; [lia | apply Hlow in H; lia].
Qed.

Lemma consecutive_rule_spec (numbers : list Z) :
  StronglySorted Z.lt numbers ->
  consecutive_rule numbers = true <-> ~ has_run3 numbers.
Proof.
  destruct numbers as [|first rest]; intros S.
  - simpl. split; trivial. intros _ (x & [] & _).
  - now apply consecutive_scan_spec.
Qed.

End Validator.

(** ** Samples *)

Section Samples.

Variables (population : list Z) (k : nat) (out : list Z).
Hypothesis Hout : is_sample population k out.

Lemma sample_length : length out = k.
Proof. exact (proj1 Hout). Qed.

Lemma sample_In (x : Z) : In x out -> In x population.
Proof.
  destruct Hout as (_ & rest & P). intros H.
  eapply Permutation_in; [symmetry; exact P|]. apply in_or_app. now left.
Qed.

Lemma sample_NoDup : NoDup population -> NoDup out.
Proof.
  destruct Hout as (_ & rest & P). intros D.
  eapply Permutation_NoDup in D; [| exact P].
  now apply NoDup_app_remove_r in D.
Qed.

End Samples.

(** ** The loop *)

Section Loop.

Variable R : Random.
Variable count : Z.
Variables use_odd_even_rule use_consecutive_rule : bool.
Variables fixed_numbers excluded_numbers : list Z.

Local Abbreviation pool := (candidates_pool fixed_numbers excluded_numbers).
Local Abbreviation body := (loop_body R use_odd_even_rule use_consecutive_rule
                    fixed_numbers excluded_numbers).
Local Abbreviation test := (loop_test count).
Local Abbreviation loop := (while_loop R count use_odd_even_rule use_consecutive_rule
                    fixed_numbers excluded_numbers).
Local Abbreviation states := (loop_states R count use_odd_even_rule use_consecutive_rule
                      fixed_numbers excluded_numbers).
Local Abbreviation outcome := (body_outcome use_odd_even_rule use_consecutive_rule
                       fixed_numbers excluded_numbers).

Lemma loop_body_outcome (s : state) : outcome s (body s).
Proof.
  unfold loop_body. fold (skipped s).
  rewrite Z.gtb_ltb. destruct (Z.ltb_spec 6 (len fixed_numbers)) as [Hf | Hf].
  { now apply outcome_break. }
  destruct (Z.ltb_spec (6 - len fixed_numbers) 0) as [Hr | Hr]; [lia|].
  destruct (Z.ltb_spec (len pool) (6 - len fixed_numbers)) as [Hp | Hp].
  { now apply outcome_short. }
  unfold random_sample.
  destruct (Z.leb_spec 0 (6 - len fixed_numbers)); [| lia].
  destruct (Z.leb_spec (6 - len fixed_numbers) (len pool)); [| lia].
  cbn [andb].
  set (random_part := draw R (calls s) pool (Z.to_nat (6 - len fixed_numbers))).
  assert (is_sample pool (Z.to_nat (6 - len fixed_numbers)) random_part) as Hs.
  { apply draw_sample. unfold len in *. lia. }
  cbv zeta. fold (drawn s (results s)).
  fold (drawn s (results s ++ [sorted (fixed_numbers ++ random_part)])).
  destruct (is_valid _ _ _) eqn:Hv; [| now apply outcome_reject].
  destruct (contains_list _ _) eqn:Hc; cbn [negb].
  - now apply outcome_reject.
  - apply outcome_accept; trivial.
    rewrite <- contains_list_In. congruence.
Qed.

Lemma loop_body_budget (s s' : state) (f : flow) :
  body s = inr (f, s') -> trials_limit s' = trials_limit s - 1.
Proof.
  intros E. pose proof (loop_body_outcome s) as O. rewrite E in O.
  inversion O; reflexivity.
Qed.

Lemma loop_test_budget (s : state) : test s = true -> 0 < trials_limit s.
Proof.
  unfold loop_test. intros H. apply andb_true_iff in H as [_ H].
  rewrite Z.gtb_ltb in H. now apply Z.ltb_lt.
Qed.

(** The loop does not depend on its fuel, once there is as much of it as
    [trials_limit]: it is a total function of the state. *)
Lemma while_loop_fuel (fuel : nat) : forall fuel' s,
  (Z.to_nat (trials_limit s) <= fuel)%nat ->
  (Z.to_nat (trials_limit s) <= fuel')%nat ->
  loop fuel s = loop fuel' s.
Proof.
  induction fuel as [|fuel IH]; intros fuel' s H H'.
  - destruct fuel'; simpl; destruct (test s) eqn:T; trivial;
      apply loop_test_budget in T; lia.
  - simpl. destruct (test s) eqn:T.
    + pose proof (loop_test_budget s T).
      destruct fuel' as [|fuel']; [lia|]. simpl. rewrite T.
      destruct (body s) as [e | [[|] s']] eqn:B; trivial.
      apply loop_body_budget in B. apply IH; lia.
    + destruct fuel'; simpl; now rewrite T.
Qed.

Lemma last_default {A : Type} (l : list A) : forall x d d',
  last (x :: l) d = last (x :: l) d'.
Proof.
  induction l as [|y l IH]; intros x d d'; [reflexivity|].
  change (last (y :: l) d = last (y :: l) d'). apply IH.
Qed.

Lemma loop_states_head (fuel : nat) (s : state) :
  exists rest, states fuel s = s :: rest.
Proof. destruct fuel; simpl; eauto. Qed.

(** The final state is the last state of the run. *)
Lemma loop_states_last (fuel : nat) : forall s s',
  loop fuel s = inr s' -> last (states fuel s) s = s'.
Proof.
  induction fuel as [|fuel IH]; intros s s'; simpl.
  - destruct (test s); intros [= <-]; reflexivity.
  - destruct (test s); [| intros [= <-]; reflexivity].
    destruct (body s) as [e | [[|] s1]];
      [discriminate | | intros [= <-]; reflexivity].
    intros E. rewrite <- (IH _ _ E).
    destruct (loop_states_head fuel s1) as [rest ->].
    apply last_default.
Qed.

(** Each pass takes one unit of [trials_limit]. *)
Lemma loop_states_budget (fuel : nat) : forall s s',
  loop fuel s = inr s' ->
  trials_limit s' = trials_limit s - Z.of_nat (pred (length (states fuel s))).
Proof.
  induction fuel as [|fuel IH]; intros s s'; simpl.
  - destruct (test s); intros [= <-]; simpl; lia.
  - destruct (test s); [| intros [= <-]; simpl; lia].
    destruct (body s) as [e | [[|] s1]] eqn:B; [discriminate | |];
      apply loop_body_budget in B.
    + intros E. rewrite (IH _ _ E), B.
      destruct (loop_states_head fuel s1) as [rest ->]. simpl length. lia.
    + intros [= <-]. simpl. lia.
Qed.

(** *** Loop invariants *)

Section Invariant.

Variable P : state -> Prop.

Hypothesis P_skipped : forall s, P s -> test s = true -> P (skipped s).

Hypothesis P_rejected : forall s,
  P s -> test s = true ->
  len fixed_numbers <= 6 -> 6 - len fixed_numbers <= len pool ->
  P (drawn s (results s)).

Hypothesis P_accepted : forall s random_part,
  P s -> test s = true ->
  len fixed_numbers <= 6 -> 6 - len fixed_numbers <= len pool ->
  is_sample pool (Z.to_nat (6 - len fixed_numbers)) random_part ->
  is_valid (sorted (fixed_numbers ++ random_part))
    use_odd_even_rule use_consecutive_rule = true ->
  ~ In (sorted (fixed_numbers ++ random_part)) (results s) ->
  P (drawn s (results s ++ [sorted (fixed_numbers ++ random_part)])).

Lemma invariant_body (s s' : state) (f : flow) :
  P s -> test s = true -> body s = inr (f, s') -> P s'.
Proof.
  intros Ps T E. pose proof (loop_body_outcome s) as O. rewrite E in O.
  inversion O; subst; eauto.
Qed.

(** The loop returns, in a state where the test fails or that the [break]
    left, and the invariant holds all along. *)
Lemma invariant_loop (fuel : nat) : forall s,
  P s -> (Z.to_nat (trials_limit s) <= fuel)%nat ->
  exists s',
    loop fuel s = inr s' /\ P s' /\
    (test s' = false \/ 6 < len fixed_numbers) /\
    Forall P (states fuel s).
Proof.
  induction fuel as [|fuel IH]; intros s Ps Hf; simpl.
  - destruct (test s) eqn:T.
    + apply loop_test_budget in T. lia.
    + exists s. auto.
  - destruct (test s) eqn:T; [| exists s; auto].
    pose proof (loop_test_budget s T) as Hpos.
    pose proof (loop_body_outcome s) as O.
    destruct (body s) as [e | [f s1]] eqn:B; [inversion O|].
    pose proof (invariant_body s s1 f Ps T B) as Ps1.
    pose proof (loop_body_budget s s1 f B) as Hb.
    destruct f.
    + destruct (IH s1 Ps1) as (s' & E & Ps' & X & F); [lia|].
      exists s'. auto.
    + exists s1. repeat split; auto.
      right. inversion O. assumption.
Qed.

Lemma invariant_run :
  P initial ->
  exists s',
    run R count use_odd_even_rule use_consecutive_rule
        fixed_numbers excluded_numbers = inr s' /\ P s' /\
    (test s' = false \/ 6 < len fixed_numbers) /\
    Forall P (run_states R count use_odd_even_rule use_consecutive_rule
                fixed_numbers excluded_numbers).
Proof. intros H. now apply invariant_loop. Qed.

End Invariant.

End Loop.

(** ** Combinations *)

Section Combinations.

Variables fixed_numbers excluded_numbers : list Z.

Local Abbreviation pool := (candidates_pool fixed_numbers excluded_numbers).
Local Abbreviation combination := (combination_of fixed_numbers excluded_numbers).

Lemma candidates_pool_In (x : Z) :
  In x pool <->
  1 <= x <= 45 /\ ~ In x excluded_numbers /\ ~ In x fixed_numbers.
Proof.
  unfold candidates_pool, available.
  rewrite !filter_In, !negb_true_iff, !contains_not_In, range_In.
  intuition lia.
Qed.

Lemma candidates_pool_NoDup : NoDup pool.
Proof.
  unfold candidates_pool, available.
  do 2 apply NoDup_filter. apply range_NoDup.
Qed.

Lemma sample_bound (k : nat) (out : list Z) :
  is_sample pool k out -> (k <= length pool)%nat.
Proof.
  intros (L & rest & P). apply Permutation_length in P.
  rewrite length_app in P. lia.
Qed.

Section OneCombination.

Variable c : list Z.
Hypothesis Hc : combination c.

Lemma combination_length : length c = 6%nat.
Proof.
  destruct Hc as (Hf & rp & Hs & ->).
  rewrite sorted_length, length_app, (sample_length _ _ _ Hs).
  unfold len in *. lia.
Qed.

Lemma combination_ascending : Sorted Z.le c.
Proof.
  destruct Hc as (_ & rp & _ & ->).
  apply StronglySorted_Sorted, sorted_ascending.
Qed.

Lemma combination_fixed (x : Z) : In x fixed_numbers -> In x c.
Proof.
  destruct Hc as (_ & rp & _ & ->). intros H.
  apply sorted_In, in_or_app. now left.
Qed.

Lemma combination_member (x : Z) :
  In x c -> In x fixed_numbers \/ In x pool.
Proof.
  destruct Hc as (_ & rp & Hs & ->). intros H.
  apply sorted_In, in_app_or in H. destruct H as [H | H]; [now left|].
  right. eapply sample_In; eassumption.
Qed.

Lemma combination_NoDup : NoDup fixed_numbers -> NoDup c.
Proof.
  destruct Hc as (_ & rp & Hs & ->). intros D.
  eapply Permutation_NoDup; [apply sorted_Permutation|].
  apply NoDup_app; [assumption | |].
  - eapply sample_NoDup; [eassumption | apply candidates_pool_NoDup].
  - intros x Hx Hr. eapply sample_In in Hr; [| eassumption].
    apply candidates_pool_In in Hr. tauto.
Qed.

Lemma combination_range :
  Forall (fun n => 1 <= n <= 45) fixed_numbers ->
  Forall (fun n => 1 <= n <= 45) c.
Proof.
  rewrite !Forall_forall. intros Hf x Hx.
  apply combination_member in Hx as [Hx | Hx]; [auto|].
  now apply candidates_pool_In in Hx.
Qed.


End OneCombination.

Lemma sample_part_included (k k' : nat) (ra rb : list Z) :
  is_sample pool k ra -> is_sample pool k' rb ->
  (forall x, In x (sorted (fixed_numbers ++ ra)) ->
             In x (sorted (fixed_numbers ++ rb))) ->
  forall x, In x ra -> In x rb.
Proof.
  intros Ha Hb I x Hx.
  assert (~ In x fixed_numbers) as Hnf.
  { eapply sample_In in Hx; [| exact Ha].
    apply candidates_pool_In in Hx. tauto. }
  specialize (I x). rewrite !sorted_In, !in_app_iff in I. tauto.
Qed.

(** Combinations with the same members are the same list. *)
Lemma combination_same_set (a b : list Z) :
  combination a -> combination b -> same_set a b -> a = b.
Proof.
  intros (_ & ra & Hsa & ->) (_ & rb & Hsb & ->) E.
  apply sorted_unique, Permutation_app_head, NoDup_Permutation.
  - eapply sample_NoDup; [exact Hsa | apply candidates_pool_NoDup].
  - eapply sample_NoDup; [exact Hsb | apply candidates_pool_NoDup].
  - intros x. split; eapply sample_part_included; try eassumption;
      intros y; apply E.
Qed.

Lemma combinations_distinct_sets (res : list (list Z)) :
  Forall combination res -> NoDup res -> distinct_sets res.
Proof.
  intros F D i j a b Hi Hj E.
  rewrite Forall_forall in F.
  assert (a = b) as ->.
  { apply combination_same_set; trivial; apply F;
      eapply nth_error_In; eassumption. }
  rewrite NoDup_nth_error in D. apply D; [| congruence].
  apply nth_error_Some. congruence.
Qed.

End Combinations.

(** ** Runs of the generator *)

Section Run.

Variable R : Random.
Variable count : Z.
Variables use_odd_even_rule use_consecutive_rule : bool.
Variables fixed_numbers excluded_numbers : list Z.

Local Abbreviation the_run :=
  (run R count use_odd_even_rule use_consecutive_rule
     fixed_numbers excluded_numbers).
Local Abbreviation the_states :=
  (run_states R count use_odd_even_rule use_consecutive_rule
     fixed_numbers excluded_numbers).
Local Abbreviation inv := (invariant count fixed_numbers excluded_numbers).
Local Abbreviation the_attempts :=
  (attempts R count use_odd_even_rule use_consecutive_rule
     fixed_numbers excluded_numbers).

Lemma loop_test_room (s : state) :
  loop_test count s = true -> len (results s) < count /\ 0 < trials_limit s.
Proof.
  intros T. split; [| exact (loop_test_budget count s T)].
  unfold loop_test in T. apply andb_true_iff in T as [T _].
  now apply Z.ltb_lt.
Qed.

Lemma run_invariant :
  exists s,
    the_run = inr s /\ inv s /\
    (loop_test count s = false \/ 6 < len fixed_numbers) /\
    Forall inv the_states.
Proof.
  apply invariant_run; unfold invariant, skipped, drawn, initial;
    cbn [results trials_limit calls].
  - intros s (C & D & L & B & K) T. apply loop_test_room in T.
    repeat split; trivial; lia.
  - intros s (C & D & L & B & K) T _ _. apply loop_test_room in T.
    repeat split; trivial; lia.
  - intros s rp (C & D & L & B & K) T Hf Hp Hs Hv Hn.
    apply loop_test_room in T. repeat split; try lia.
    + apply Forall_app. split; [assumption|].
      constructor; [| constructor]. split; [assumption|]. now exists rp.
    + eapply Permutation_NoDup; [apply Permutation_cons_append|].
      now constructor.
    + rewrite len_app. change (len [sorted (fixed_numbers ++ rp)]) with 1. lia.
  - change (len []) with 0. repeat split; try constructor; lia.
Qed.

Lemma run_attempts (s : state) :
  the_run = inr s -> trials_limit s = 10000 - Z.of_nat the_attempts.
Proof. intros E. now apply loop_states_budget in E. Qed.

Lemma run_last (s : state) :
  the_run = inr s -> last the_states initial = s.
Proof. apply loop_states_last. Qed.

(** Without enough candidates no pass draws or appends. *)
Lemma run_short_pool :
  len fixed_numbers <= 6 ->
  len (candidates_pool fixed_numbers excluded_numbers) < 6 - len fixed_numbers ->
  exists s,
    the_run = inr s /\ results s = [] /\ calls s = 0%nat /\
    loop_test count s = false /\
    Forall (fun s => results s = [] /\ calls s = 0%nat) the_states.
Proof.
  intros Hf Hp.
  destruct (invariant_run R count use_odd_even_rule use_consecutive_rule
              fixed_numbers excluded_numbers
              (fun s => results s = [] /\ calls s = 0%nat))
    as (s & E & [Hr Hc] & X & F).
  - intros s H _. exact H.
  - intros; lia.
  - intros; lia.
  - now split.
  - exists s. destruct X as [X | X]; [auto | lia].
Qed.

(** With too many fixed numbers the first pass ends at the [break]. *)
Lemma run_too_many_fixed :
  6 < len fixed_numbers ->
  the_run = inr (if 0 <? count then skipped initial else initial) /\
  the_attempts = if 0 <? count then 1%nat else 0%nat.
Proof.
  intros Hf. unfold run, attempts, run_states.
  destruct (Z.to_nat (trials_limit initial)) as [|fuel] eqn:Efuel;
    [simpl in Efuel; lia|].
  cbn [while_loop loop_states].
  replace (loop_test count initial) with (0 <? count).
  2:{ unfold loop_test, initial, len. simpl.
      now rewrite andb_true_r. }
  destruct (0 <? count); [| now split].
  pose proof (loop_body_outcome R use_odd_even_rule use_consecutive_rule
                fixed_numbers excluded_numbers initial) as O.
  inversion O as [_ E | | |]; try lia. now split.
Qed.

(** Without a count to reach the loop is not entered. *)
Lemma run_no_count :
  count <= 0 -> the_run = inr initial /\ the_attempts = 0%nat.
Proof.
  intros Hc. unfold run, attempts, run_states.
  assert (loop_test count initial = false) as T.
  { unfold loop_test, initial, len. simpl.
    destruct (Z.ltb_spec 0 count); [lia | reflexivity]. }
  destruct (Z.to_nat (trials_limit initial)); simpl; now rewrite T.
Qed.

End Run.

(** ** The generator at work *)

Example is_valid_accepts :
  is_valid [45; 3; 40; 18; 25; 42] true true = true.
Proof. reflexivity. Qed.

Example is_valid_rejects_run :
  is_valid [1; 2; 3; 10; 20; 31] false true = false.
Proof. reflexivity. Qed.

Example is_valid_rejects_split :
  is_valid [1; 3; 5; 7; 10; 20] true false = false.
Proof. reflexivity. Qed.

Example generate_five :
  generate_lotto_numbers Lcg.source 5 true true None None =
  inr [[3; 18; 25; 40; 42; 45]; [11; 17; 18; 20; 36; 45];
       [5; 10; 26; 28; 41; 45]; [4; 7; 13; 18; 24; 41];
       [2; 3; 10; 24; 25; 45]].
Proof. vm_compute. reflexivity. Qed.

Example generate_fixed_and_excluded :
  generate_lotto_numbers Lcg.source 5 true true (Some [7; 13]) (Some [1; 2; 3]) =
  inr [[4; 7; 13; 25; 36; 40]; [7; 8; 13; 18; 23; 32];
       [7; 13; 20; 21; 28; 40]; [7; 11; 13; 14; 16; 34];
       [7; 13; 14; 16; 17; 40]].
Proof. vm_compute. reflexivity. Qed.

Example generate_seven_fixed :
  run Lcg.source 1 true true [1; 2; 3; 4; 5; 6; 7] [] = inr (mkState [] 9999 0).
Proof. vm_compute. reflexivity. Qed.

(** * The claims *)

Lemma generate_of_run (R : Random) (count : Z) (oe nr : bool)
    (fixed excluded : option (list Z)) (s : state) :
  run R count oe nr (or_empty fixed) (or_empty excluded) = inr s ->
  generate_lotto_numbers R count oe nr fixed excluded = inr (results s).
Proof. unfold generate_lotto_numbers. now intros ->. Qed.

(** The combinations of a result set are combinations of the fixed numbers
    and the candidate pool. *)
Lemma generate_combinations (R : Random) (count : Z) (oe nr : bool)
    (fixed excluded : option (list Z)) :
  exists res,
    generate_lotto_numbers R count oe nr fixed excluded = inr res /\
    Forall (combination_of (or_empty fixed) (or_empty excluded)) res.
Proof.
  destruct (run_invariant R count oe nr (or_empty fixed) (or_empty excluded))
    as (s & E & (C & _) & _).
  exists (results s). split; [now apply generate_of_run | exact C].
Qed.

(** C1.  Every combination that [generate_lotto_numbers] returns is sorted
    ascending and has exactly 6 members, pairwise different and each in
    [1, 45], when the fixed numbers are pairwise different and in [1, 45].
    The call returns normally; the count, the rule flags, the number of
    fixed numbers and the excluded numbers are not restricted. *)
Theorem generate_combinations_well_formed (R : Random) (count : Z)
    (oe nr : bool) (fixed excluded : option (list Z)) :
  NoDup (or_empty fixed) ->
  Forall (fun n => 1 <= n <= 45) (or_empty fixed) ->
  exists res,
    generate_lotto_numbers R count oe nr fixed excluded = inr res /\
    Forall (fun c => Sorted Z.le c /\ length c = 6%nat /\ NoDup c /\
                     Forall (fun n => 1 <= n <= 45) c) res.
Proof.
  intros D In45.
  destruct (generate_combinations R count oe nr fixed excluded)
    as (res & E & C).
  exists res. split; [exact E|].
  eapply Forall_impl; [| exact C]. intros c Hc. repeat split.
  - eapply combination_ascending; exact Hc.
  - eapply combination_length; exact Hc.
  - eapply combination_NoDup; eassumption.
  - eapply combination_range; eassumption.
Qed.

Lemma generate_combinations_well_formed_witness :
  exists res,
    generate_lotto_numbers Lcg.source 5 true true (Some [7; 13]) (Some [1; 2; 3])
      = inr res /\
    Forall (fun c => Sorted Z.le c /\ length c = 6%nat /\ NoDup c /\
                     Forall (fun n => 1 <= n <= 45) c) res.
Proof.
  apply (generate_combinations_well_formed Lcg.source 5 true true
           (Some [7; 13]) (Some [1; 2; 3])).
  - repeat constructor; simpl; intuition discriminate.
  - repeat constructor; discriminate.
Defined.



(** C3.  On a list of pairwise different numbers [is_valid] answers [True]
    exactly when the odd/even rule is off or exactly 3 members are odd, and
    the consecutive rule is off or no 3 members form a run of consecutive
    integers.  The list need not be sorted, of length 6 or within [1, 45]. *)
Theorem is_valid_characterisation (c : list Z) (oe nr : bool) :
  NoDup c ->
  is_valid c oe nr = true <->
  (oe = false \/ odd_count c = 3%nat) /\ (nr = false \/ ~ has_run3 c).
Proof.
  intros D. unfold is_valid.
  pose proof (sorted_Permutation c) as P.
  assert (StronglySorted Z.lt (sorted c)) as S.
  { apply ascending_strict; [apply sorted_ascending|].
    eapply Permutation_NoDup; eassumption. }
  rewrite (odd_count_Permutation _ _ P).
  rewrite (has_run3_same_members c (sorted c))
    by (intros x; symmetry; apply sorted_In).
  rewrite <- odd_even_rule_count, <- (consecutive_rule_spec _ S).
  destruct oe, nr,
    (odd_even_rule (sorted c)), (consecutive_rule (sorted c));
    simpl; intuition congruence.
Qed.

Lemma is_valid_characterisation_witness :
  is_valid [3; 18; 25; 40; 42; 45] true true = true <->
  (true = false \/ odd_count [3; 18; 25; 40; 42; 45] = 3%nat) /\
  (true = false \/ ~ has_run3 [3; 18; 25; 40; 42; 45]).
Proof.
  apply (is_valid_characterisation [3; 18; 25; 40; 42; 45] true true).
  repeat constructor; simpl; intuition discriminate.
Defined.

(** C4.  Every fixed number is a member of every combination that
    [generate_lotto_numbers] returns (with more than 6 fixed numbers there
    is no combination). *)
Theorem generate_contains_fixed (R : Random) (count : Z) (oe nr : bool)
    (fixed excluded : option (list Z)) :
  exists res,
    generate_lotto_numbers R count oe nr fixed excluded = inr res /\
    forall c x, In c res -> In x (or_empty fixed) -> In x c.
Proof.
  destruct (generate_combinations R count oe nr fixed excluded)
    as (res & E & C).
  exists res. split; [exact E|]. intros c x Hc Hx.
  rewrite Forall_forall in C. eapply combination_fixed; eauto.
Qed.

(** C5.  [generate_lotto_numbers] always returns, and returns normally.
    The loop stops: it ends in a state where its test fails, with [count]
    combinations found or [trials_limit] at 0, or at the [break] for more
    than 6 fixed numbers; and it ends in that state however much fuel the
    model is given beyond 10000.  It makes at most 10000 passes, each pass
    takes one unit of [trials_limit], and the result set has between 0 and
    [count] members (none when [count] is negative). *)
Theorem generate_terminates (R : Random) (count : Z) (oe nr : bool)
    (fixed excluded : option (list Z)) :
  exists s,
    run R count oe nr (or_empty fixed) (or_empty excluded) = inr s /\
    generate_lotto_numbers R count oe nr fixed excluded = inr (results s) /\
    (loop_test count s = false \/ 6 < len (or_empty fixed)) /\
    (count <= len (results s) \/ trials_limit s = 0 \/
     6 < len (or_empty fixed)) /\
    (forall fuel, 10000 <= Z.of_nat fuel ->
       while_loop R count oe nr (or_empty fixed) (or_empty excluded)
         fuel initial = inr s) /\
    Z.of_nat (attempts R count oe nr (or_empty fixed) (or_empty excluded))
      <= 10000 /\
    trials_limit s =
      10000 - Z.of_nat (attempts R count oe nr (or_empty fixed) (or_empty excluded)) /\
    0 <= len (results s) <= Z.max 0 count.
Proof.
  destruct (run_invariant R count oe nr (or_empty fixed) (or_empty excluded))
    as (s & E & (_ & _ & L & B & _) & X & _).
  pose proof (run_attempts _ _ _ _ _ _ s E) as A.
  exists s. split; [exact E|]. split; [now apply generate_of_run|].
  split; [exact X|]. split; [| split; [| repeat split; trivial]].
  - destruct X as [T | T]; [| tauto].
    unfold loop_test in T. apply andb_false_iff in T as [T | T].
    + apply Z.ltb_ge in T. tauto.
    + rewrite Z.gtb_ltb in T. apply Z.ltb_ge in T. right. left. lia.
  - intros fuel Hfuel. rewrite <- E. unfold run.
    apply while_loop_fuel; unfold initial; cbn [trials_limit]; lia.
  - lia.
  - apply len_nonneg.
Qed.

(** C6, as stated, fails: with 7 fixed numbers and [count = 1] the loop is
    entered and its one pass takes a unit of [trials_limit] before the
    [break]. *)
Lemma too_many_fixed_takes_budget :
  ~ (forall (R : Random) (count : Z) (oe nr : bool)
            (fixed excluded : option (list Z)),
        6 < len (or_empty fixed) ->
        exists s,
          run R count oe nr (or_empty fixed) (or_empty excluded) = inr s /\
          results s = [] /\ calls s = 0%nat /\
          attempts R count oe nr (or_empty fixed) (or_empty excluded) = 0%nat /\
          trials_limit s = 10000).
Proof.
  intros H.
  destruct (H Lcg.source 1 true true (Some [1; 2; 3; 4; 5; 6; 7]) None)
    as (s & E & _ & _ & A & T).
  - reflexivity.
  - vm_compute in A. discriminate A.
Qed.

(** C6, amended.  With more than 6 fixed numbers [generate_lotto_numbers]
    returns an empty result set and draws no candidate.  The guard is
    inside the loop: when [count >= 1] one pass starts and takes one unit of
    [trials_limit] before it leaves at the [break]; when [count <= 0] there
    is no pass. *)
Theorem generate_too_many_fixed (R : Random) (count : Z) (oe nr : bool)
    (fixed excluded : option (list Z)) :
  6 < len (or_empty fixed) ->
  exists s,
    run R count oe nr (or_empty fixed) (or_empty excluded) = inr s /\
    generate_lotto_numbers R count oe nr fixed excluded = inr [] /\
    results s = [] /\ calls s = 0%nat /\
    attempts R count oe nr (or_empty fixed) (or_empty excluded)
      = (if 1 <=? count then 1%nat else 0%nat) /\
    trials_limit s = (if 1 <=? count then 9999 else 10000).
Proof.
  intros Hf.
  destruct (run_too_many_fixed R count oe nr (or_empty fixed)
              (or_empty excluded) Hf) as [E A].
  replace (1 <=? count) with (0 <? count)
    by (destruct (Z.ltb_spec 0 count), (Z.leb_spec 1 count); trivial; lia).
  exists (if 0 <? count then skipped initial else initial).
  split; [exact E|]. split; [rewrite (generate_of_run _ _ _ _ _ _ _ E)|];
    destruct (0 <? count); auto.
Qed.

Lemma generate_too_many_fixed_witness :
  exists s,
    run Lcg.source 1 true true [1; 2; 3; 4; 5; 6; 7] [] = inr s /\
    generate_lotto_numbers Lcg.source 1 true true (Some [1; 2; 3; 4; 5; 6; 7]) None
      = inr [] /\
    results s = [] /\ calls s = 0%nat /\
    attempts Lcg.source 1 true true [1; 2; 3; 4; 5; 6; 7] [] = 1%nat /\
    trials_limit s = 9999.
Proof.
  apply (generate_too_many_fixed Lcg.source 1 true true
           (Some [1; 2; 3; 4; 5; 6; 7]) None).
  reflexivity.
Defined.

(** C7.  In every state of a run, and in the value returned, no two
    combinations of [results] are identical as sets of numbers, and
    [results] has at most [count] members (none when [count] is negative).
    The value returned is [results] in the last state of the run. *)
Theorem generate_results_distinct (R : Random) (count : Z) (oe nr : bool)
    (fixed excluded : option (list Z)) :
  Forall (fun s => distinct_sets (results s) /\
                   len (results s) <= Z.max 0 count)
    (run_states R count oe nr (or_empty fixed) (or_empty excluded)) /\
  exists res,
    generate_lotto_numbers R count oe nr fixed excluded = inr res /\
    res = results (last (run_states R count oe nr (or_empty fixed)
                           (or_empty excluded)) initial) /\
    distinct_sets res /\ len res <= Z.max 0 count.
Proof.
  destruct (run_invariant R count oe nr (or_empty fixed) (or_empty excluded))
    as (s & E & (C & D & L & _) & _ & F).
  split.
  - eapply Forall_impl; [| exact F].
    intros s' (C' & D' & L' & _). split; [| exact L'].
    eapply combinations_distinct_sets; eassumption.
  - exists (results s). split; [now apply generate_of_run|].
    split; [now rewrite (run_last _ _ _ _ _ _ s E)|].
    split; [| exact L]. eapply combinations_distinct_sets; eassumption.
Qed.

(** C8.  When at most 6 numbers are fixed and the candidate pool ([1, 45]
    without the excluded and the fixed numbers) has fewer than
    [6 - len(fixed_numbers)] members, a call with [count >= 1] returns an
    empty result set: all 10000 passes are made and none draws a candidate
    or appends a combination. *)
Theorem generate_short_pool_empty (R : Random) (count : Z) (oe nr : bool)
    (fixed excluded : option (list Z)) :
  1 <= count ->
  len (or_empty fixed) <= 6 ->
  len (candidates_pool (or_empty fixed) (or_empty excluded))
    < 6 - len (or_empty fixed) ->
  generate_lotto_numbers R count oe nr fixed excluded = inr [] /\
  Z.of_nat (attempts R count oe nr (or_empty fixed) (or_empty excluded))
    = 10000 /\
  Forall (fun s => results s = [] /\ calls s = 0%nat)
    (run_states R count oe nr (or_empty fixed) (or_empty excluded)).
Proof.
  intros Hc Hf Hp.
  destruct (run_short_pool R count oe nr (or_empty fixed) (or_empty excluded)
              Hf Hp) as (s & E & Hr & Hk & T & F).
  destruct (run_invariant R count oe nr (or_empty fixed) (or_empty excluded))
    as (s' & E' & (_ & _ & _ & B & _) & _).
  rewrite E in E'. injection E' as <-.
  pose proof (run_attempts _ _ _ _ _ _ s E) as A.
  split; [| split; [| exact F]].
  - rewrite (generate_of_run _ _ _ _ _ _ _ E). now rewrite Hr.
  - unfold loop_test in T. rewrite Hr in T. change (len []) with 0 in T.
    destruct (Z.ltb_spec 0 count); [| lia]. cbn [andb] in T.
    rewrite Z.gtb_ltb in T. apply Z.ltb_ge in T. lia.
Qed.

Lemma generate_short_pool_empty_witness :
  generate_lotto_numbers Lcg.source 2 true true None (Some (range 1 41)) = inr [] /\
  Z.of_nat (attempts Lcg.source 2 true true [] (range 1 41)) = 10000 /\
  Forall (fun s => results s = [] /\ calls s = 0%nat)
    (run_states Lcg.source 2 true true [] (range 1 41)).
Proof.
  apply (generate_short_pool_empty Lcg.source 2 true true None (Some (range 1 41))).
  - discriminate.
  - discriminate.
  - reflexivity.
Defined.

(** C9.  [is_valid] answers the same on a list and on any permutation of
    it. *)
Theorem is_valid_order_insensitive (a b : list Z) (oe nr : bool) :
  Permutation a b -> is_valid a oe nr = is_valid b oe nr.
Proof.
  intros P. unfold is_valid. now rewrite (sorted_unique a b P).
Qed.

Lemma is_valid_order_insensitive_witness :
  is_valid [3; 18; 25; 40; 42; 45] true true =
  is_valid [45; 42; 40; 25; 18; 3] true true.
Proof.
  apply (is_valid_order_insensitive [3; 18; 25; 40; 42; 45]
           [45; 42; 40; 25; 18; 3] true true).
  exact (Permutation_rev [3; 18; 25; 40; 42; 45]).
Defined.

(** C10.  With [count <= 0] [generate_lotto_numbers] returns an empty
    result set: the loop makes no pass and no candidate is drawn. *)
Theorem generate_nonpositive_count (R : Random) (count : Z) (oe nr : bool)
    (fixed excluded : option (list Z)) :
  count <= 0 ->
  generate_lotto_numbers R count oe nr fixed excluded = inr [] /\
  run R count oe nr (or_empty fixed) (or_empty excluded)
    = inr (mkState [] 10000 0) /\
  attempts R count oe nr (or_empty fixed) (or_empty excluded) = 0%nat.
Proof.
  intros Hc.
  destruct (run_no_count R count oe nr (or_empty fixed) (or_empty excluded) Hc)
    as [E A].
  split; [| split]; trivial.
  now rewrite (generate_of_run _ _ _ _ _ _ _ E).
Qed.

Lemma generate_nonpositive_count_witness :
  generate_lotto_numbers Lcg.source 0 true true (Some [7; 13]) None = inr [] /\
  run Lcg.source 0 true true [7; 13] [] = inr (mkState [] 10000 0) /\
  attempts Lcg.source 0 true true [7; 13] [] = 0%nat.
Proof.
  apply (generate_nonpositive_count Lcg.source 0 true true (Some [7; 13]) None).
  discriminate.
Defined.

(** * Further properties *)

(** ** The validator on arbitrary lists *)

Section ValidatorAnyList.

Lemma has_adjacent_run3_cons (a : Z) (l : list Z) :
  has_adjacent_run3 (a :: l) <->
  (exists after, l = a + 1 :: a + 2 :: after) \/ has_adjacent_run3 l.
Proof.
  split.
  - intros ([|b before] & x & after & E); simpl in E.
    + injection E as -> ->. left. now exists after.
    + injection E as -> ->. right. now exists before, x, after.
  - intros [(after & ->) | (before & x & after & ->)].
    + now exists [], a, after.
    + now exists (a :: before), x, after.
Qed.

Lemma has_adjacent_run3_length (l : list Z) :
  has_adjacent_run3 l -> (3 <= length l)%nat.
Proof.
  intros (before & x & after & ->). rewrite length_app. simpl. lia.
Qed.

(** The scan with the counter at 1, and at 2 after [prev - 1]. *)
Lemma consecutive_scan_adjacent (rest : list Z) : forall prev,
  (consecutive_scan prev 1 rest = true <-> ~ has_adjacent_run3 (prev :: rest)) /\
  (consecutive_scan prev 2 rest = true <->
   ~ has_adjacent_run3 (prev - 1 :: prev :: rest)).
Proof.
  induction rest as [|x rest IH]; intros prev.
  - simpl. split; split; trivial; intros _ H;
      apply has_adjacent_run3_length in H; simpl in H; lia.
  - destruct (IH x) as [IH1 IH2].
    simpl consecutive_scan. destruct (Z.eqb_spec x (prev + 1)) as [-> | Hne].
    + split.
      * change (1 + 1 >=? 3) with false. cbv iota.
        change (1 + 1) with 2. rewrite IH2.
        replace (prev + 1 - 1) with prev by lia. reflexivity.
      * change (2 + 1 >=? 3) with true. cbv iota. split; [discriminate|].
        intros H. exfalso. apply H. exists [], (prev - 1), rest. simpl.
        replace (prev - 1 + 1) with prev by lia.
        replace (prev - 1 + 2) with (prev + 1) by lia. reflexivity.
    + assert (has_adjacent_run3 (prev :: x :: rest) <->
              has_adjacent_run3 (x :: rest)) as E1.
      { rewrite has_adjacent_run3_cons. split; [| tauto].
        intros [(after & E) | H]; [| exact H]. injection E as E _. lia. }
      split.
      * now rewrite IH1, E1.
      * rewrite IH1, <- E1. apply not_iff_compat. symmetry.
        rewrite has_adjacent_run3_cons. split; [| tauto].
        intros [(after & E) | H]; [| exact H]. injection E as _ E _. lia.
Qed.

Lemma consecutive_rule_adjacent (numbers : list Z) :
  consecutive_rule numbers = true <-> ~ has_adjacent_run3 numbers.
Proof.
  destruct numbers as [|first rest].
  - simpl. split; trivial. intros _ H.
    apply has_adjacent_run3_length in H. simpl in H. lia.
  - apply consecutive_scan_adjacent.
Qed.

Lemma odd_even_split (c : list Z) :
  (odd_count c + even_count c)%nat = length c.
Proof.
  unfold odd_count, even_count. induction c as [|x c IH]; simpl; trivial.
  rewrite <- Z.negb_odd. destruct (Z.odd x); simpl; lia.
Qed.

Lemma is_valid_sorted (c : list Z) (oe nr : bool) :
  is_valid (sorted c) oe nr = is_valid c oe nr.
Proof.
  unfold is_valid. now rewrite (sorted_fixpoint _ (sorted_ascending c)).
Qed.

Lemma is_valid_odd_even (c : list Z) (nr : bool) :
  is_valid c true nr = true -> odd_count c = 3%nat.
Proof.
  unfold is_valid. cbn [andb].
  destruct (odd_even_rule (sorted c)) eqn:E; [| discriminate]. intros _.
  apply odd_even_rule_count in E.
  now rewrite (odd_count_Permutation _ _ (sorted_Permutation c)).
Qed.

Lemma is_valid_consecutive (c : list Z) (oe : bool) :
  is_valid c oe true = true -> consecutive_rule (sorted c) = true.
Proof.
  unfold is_valid. cbn [andb].
  destruct (consecutive_rule (sorted c)); trivial.
  destruct (oe && negb _); discriminate.
Qed.

(** X1.  With the odd/even rule alone, [is_valid] answers [True] on any list,
    of any length and with or without repeated numbers, exactly when 3 of
    its members are odd: the length is not looked at, and the even members
    are not counted. *)
Theorem is_valid_odd_rule_any_list (c : list Z) :
  is_valid c true false = true <-> odd_count c = 3%nat.
Proof.
  split; [apply is_valid_odd_even|]. intros H.
  rewrite (odd_count_Permutation _ _ (sorted_Permutation c)) in H.
  apply odd_even_rule_count in H. unfold is_valid. now rewrite H.
Qed.

(** X2.  With the consecutive rule alone, [is_valid] answers [True] on any
    list exactly when no three neighbours of the sorted list are consecutive
    integers.  A repeated number breaks a run: [1, 2, 2, 3] passes. *)
Theorem is_valid_run_rule_any_list (c : list Z) :
  is_valid c false true = true <-> ~ has_adjacent_run3 (sorted c).
Proof.
  rewrite <- consecutive_rule_adjacent. unfold is_valid. cbn [andb].
  destruct (consecutive_rule (sorted c)); simpl; intuition congruence.
Qed.

End ValidatorAnyList.

(** ** More on the runs of the generator *)

Section RunMore.

Variable R : Random.
Variable count : Z.
Variables use_odd_even_rule use_consecutive_rule : bool.
Variables fixed_numbers excluded_numbers : list Z.

Local Abbreviation pool := (candidates_pool fixed_numbers excluded_numbers).
Local Abbreviation body := (loop_body R use_odd_even_rule use_consecutive_rule
                              fixed_numbers excluded_numbers).
Local Abbreviation loop := (while_loop R count use_odd_even_rule
                              use_consecutive_rule fixed_numbers excluded_numbers).
Local Abbreviation states := (loop_states R count use_odd_even_rule
                                use_consecutive_rule fixed_numbers excluded_numbers).
Local Abbreviation the_run :=
  (run R count use_odd_even_rule use_consecutive_rule
     fixed_numbers excluded_numbers).
Local Abbreviation the_states :=
  (run_states R count use_odd_even_rule use_consecutive_rule
     fixed_numbers excluded_numbers).
Local Abbreviation valid :=
  (fun c => is_valid c use_odd_even_rule use_consecutive_rule = true).

(** Every member of [results] passed [is_valid], and took a call of
    [random.sample]. *)
Lemma run_valid :
  exists s,
    the_run = inr s /\ Forall valid (results s) /\
    len (results s) <= Z.of_nat (calls s).
Proof.
  destruct (invariant_run R count use_odd_even_rule use_consecutive_rule
              fixed_numbers excluded_numbers
              (fun s => Forall valid (results s) /\
                        len (results s) <= Z.of_nat (calls s)))
    as (s & E & H & _); [| | | | now exists s];
    unfold skipped, drawn, initial; cbn [results calls].
  - intros s H _. exact H.
  - intros s [V L] _ _ _. split; [exact V | lia].
  - intros s rp [V L] _ _ _ _ Hv _. split.
    + apply Forall_app. split; [exact V | now repeat constructor].
    + rewrite len_app. change (len [sorted (fixed_numbers ++ rp)]) with 1. lia.
  - split; [constructor | reflexivity].
Qed.

Lemma loop_body_prefix (s s' : state) (f : flow) :
  body s = inr (f, s') -> prefix_of (results s) (results s').
Proof.
  intros E.
  pose proof (loop_body_outcome R use_odd_even_rule use_consecutive_rule
                fixed_numbers excluded_numbers s) as O.
  rewrite E in O. inversion O; subst; simpl.
  1-3: exists []; now rewrite app_nil_r.
  now eexists.
Qed.

Lemma prefix_of_trans {A : Type} (a b c : list A) :
  prefix_of a b -> prefix_of b c -> prefix_of a c.
Proof.
  intros [x ->] [y ->]. exists (x ++ y). now rewrite app_assoc.
Qed.

(** [results] in any state of the loop is an initial part of [results] in
    the final state. *)
Lemma loop_states_prefix (fuel : nat) : forall s s',
  loop fuel s = inr s' ->
  Forall (fun t => prefix_of (results t) (results s')) (states fuel s).
Proof.
  assert (forall s : state, prefix_of (results s) (results s)) as Hrefl
    by (intros s; exists []; now rewrite app_nil_r).
  induction fuel as [|fuel IH]; intros s s'; simpl.
  - destruct (loop_test count s); intros [= <-]; repeat constructor; apply Hrefl.
  - destruct (loop_test count s);
      [| intros [= <-]; repeat constructor; apply Hrefl].
    destruct (body s) as [e | [[|] s1]] eqn:B; [discriminate | |];
      apply loop_body_prefix in B.
    + intros E. specialize (IH _ _ E). constructor; [| exact IH].
      destruct (loop_states_head R count use_odd_even_rule use_consecutive_rule
                  fixed_numbers excluded_numbers fuel s1) as [rest Hs].
      rewrite Hs in IH. inversion IH; subst.
      eapply prefix_of_trans; eassumption.
    + intros [= <-]. repeat constructor; [exact B | apply Hrefl].
Qed.

(** When the first combination drawn is valid, it is the first one of
    [results] from then on. *)
Lemma run_first_accepted :
  1 <= count ->
  len fixed_numbers <= 6 ->
  6 - len fixed_numbers <= len pool ->
  let nums := sorted (fixed_numbers ++
                      draw R 0 pool (Z.to_nat (6 - len fixed_numbers))) in
  valid nums ->
  exists s rest, the_run = inr s /\ results s = nums :: rest.
Proof.
  intros Hc Hf Hp nums Hv. unfold run.
  destruct (Z.to_nat (trials_limit initial)) as [|fuel] eqn:Efuel;
    [simpl in Efuel; lia|].
  cbn [while_loop].
  assert (loop_test count initial = true) as ->.
  { unfold loop_test, initial, len. simpl.
    destruct (Z.ltb_spec 0 count); [reflexivity | lia]. }
  assert (body initial = inr (Continue, mkState [nums] 9999 1)) as ->.
  { unfold loop_body, random_sample. rewrite Z.gtb_ltb.
    destruct (Z.ltb_spec 6 (len fixed_numbers)); [lia|].
    destruct (Z.ltb_spec (6 - len fixed_numbers) 0); [lia|].
    destruct (Z.ltb_spec (len pool) (6 - len fixed_numbers)); [lia|].
    destruct (Z.leb_spec 0 (6 - len fixed_numbers)); [| lia].
    destruct (Z.leb_spec (6 - len fixed_numbers) (len pool)); [| lia].
    cbn [andb calls results trials_limit initial]. fold nums.
    now rewrite Hv. }
  destruct (invariant_loop R count use_odd_even_rule use_consecutive_rule
              fixed_numbers excluded_numbers
              (fun s => exists rest, results s = nums :: rest)
              ltac:(intros s H _; exact H)
              ltac:(intros s H _ _ _; exact H)
              ltac:(intros s rp [rest H] _ _ _ _ _ _; unfold drawn; simpl;
                    rewrite H; now eexists)
              fuel (mkState [nums] 9999 1))
    as (s & E & [rest H] & _).
  - now exists [].
  - simpl in *. lia.
  - now exists s, rest.
Qed.

End RunMore.

(** ** More on the result sets *)

Lemma run_final_unique (R : Random) (count : Z) (oe nr : bool)
    (fixed excluded : list Z) (s s' : state) :
  run R count oe nr fixed excluded = inr s ->
  run R count oe nr fixed excluded = inr s' -> s = s'.
Proof. congruence. Qed.

Lemma empty_sample (population out : list Z) :
  is_sample population 0 out -> out = [].
Proof. intros [L _]. now apply length_zero_iff_nil. Qed.

Lemma NoDup_all_equal {A : Type} (a : A) (l : list A) :
  NoDup l -> Forall (eq a) l -> l = [] \/ l = [a].
Proof.
  intros D F. destruct l as [|x [|y l]]; [now left | |].
  - inversion F; subst. now right.
  - inversion F as [|? ? <- F']. inversion F' as [|? ? <- _].
    inversion D as [|? ? N _]. exfalso. apply N. now left.
Qed.

(** X3.  With the odd/even rule on, every combination that
    [generate_lotto_numbers] returns has exactly 3 odd and 3 even members,
    whatever the fixed and excluded numbers are. *)
Theorem generate_odd_even_balanced (R : Random) (count : Z) (nr : bool)
    (fixed excluded : option (list Z)) :
  exists res,
    generate_lotto_numbers R count true nr fixed excluded = inr res /\
    Forall (fun c => odd_count c = 3%nat /\ even_count c = 3%nat) res.
Proof.
  destruct (run_valid R count true nr (or_empty fixed) (or_empty excluded))
    as (s & E & V & _).
  destruct (run_invariant R count true nr (or_empty fixed) (or_empty excluded))
    as (s' & E' & (C & _) & _).
  rewrite (run_final_unique _ _ _ _ _ _ _ _ E' E) in C.
  exists (results s). split; [now apply generate_of_run|].
  rewrite Forall_forall in *. intros c Hc.
  pose proof (is_valid_odd_even c nr (V c Hc)) as Ho.
  pose proof (combination_length _ _ c (C c Hc)) as Hl.
  pose proof (odd_even_split c). split; [exact Ho | lia].
Qed.

(** X4.  With the consecutive rule on and pairwise different fixed numbers,
    no combination that [generate_lotto_numbers] returns has three members
    that are consecutive integers. *)
Theorem generate_no_long_run (R : Random) (count : Z) (oe : bool)
    (fixed excluded : option (list Z)) :
  NoDup (or_empty fixed) ->
  exists res,
    generate_lotto_numbers R count oe true fixed excluded = inr res /\
    Forall (fun c => ~ has_run3 c) res.
Proof.
  intros D.
  destruct (run_valid R count oe true (or_empty fixed) (or_empty excluded))
    as (s & E & V & _).
  destruct (run_invariant R count oe true (or_empty fixed) (or_empty excluded))
    as (s' & E' & (C & _) & _).
  rewrite (run_final_unique _ _ _ _ _ _ _ _ E' E) in C.
  exists (results s). split; [now apply generate_of_run|].
  rewrite Forall_forall in *. intros c Hc.
  pose proof (is_valid_consecutive c oe (V c Hc)) as Hr.
  assert (StronglySorted Z.lt (sorted c)) as S.
  { apply ascending_strict; [apply sorted_ascending|].
    eapply Permutation_NoDup; [apply sorted_Permutation|].
    eapply combination_NoDup; eauto. }
  apply (consecutive_rule_spec _ S) in Hr.
  intros H. apply Hr.
  eapply has_run3_same_members; [| exact H]. intros x. apply sorted_In.
Qed.

Lemma generate_no_long_run_witness :
  exists res,
    generate_lotto_numbers Lcg.source 5 false true (Some [7; 8]) None
      = inr res /\
    Forall (fun c => ~ has_run3 c) res.
Proof.
  apply (generate_no_long_run Lcg.source 5 false (Some [7; 8]) None).
  repeat constructor; simpl; intuition discriminate.
Defined.

(** X5.  With at most 6 fixed numbers, [generate_lotto_numbers] returns
    [count] combinations (none for a negative [count]) unless all 10000
    passes of the loop were made: a shortfall only comes from the budget. *)
Theorem generate_full_or_exhausted (R : Random) (count : Z) (oe nr : bool)
    (fixed excluded : option (list Z)) :
  len (or_empty fixed) <= 6 ->
  exists res,
    generate_lotto_numbers R count oe nr fixed excluded = inr res /\
    (len res = Z.max 0 count \/
     Z.of_nat (attempts R count oe nr (or_empty fixed) (or_empty excluded))
       = 10000).
Proof.
  intros Hf.
  destruct (run_invariant R count oe nr (or_empty fixed) (or_empty excluded))
    as (s & E & (_ & _ & L & B & _) & [T | T] & _); [| lia].
  pose proof (run_attempts _ _ _ _ _ _ s E) as A.
  pose proof (len_nonneg (results s)) as N.
  exists (results s). split; [now apply generate_of_run|].
  unfold loop_test in T. apply andb_false_iff in T as [T | T].
  - apply Z.ltb_ge in T. left. lia.
  - rewrite Z.gtb_ltb in T. apply Z.ltb_ge in T. right. lia.
Qed.

Lemma generate_full_or_exhausted_witness :
  exists res,
    generate_lotto_numbers Lcg.source 5 true true (Some [7; 13]) (Some [1; 2; 3])
      = inr res /\
    (len res = Z.max 0 5 \/
     Z.of_nat (attempts Lcg.source 5 true true [7; 13] [1; 2; 3]) = 10000).
Proof.
  apply (generate_full_or_exhausted Lcg.source 5 true true
           (Some [7; 13]) (Some [1; 2; 3])).
  discriminate.
Defined.

(** X6.  [results] only grows at its end: in every state of a run it is an
    initial part of the list that [generate_lotto_numbers] returns, so the
    combinations come back in the order they were accepted and none is
    removed or changed. *)
Theorem generate_results_grow (R : Random) (count : Z) (oe nr : bool)
    (fixed excluded : option (list Z)) :
  exists res,
    generate_lotto_numbers R count oe nr fixed excluded = inr res /\
    Forall (fun s => prefix_of (results s) res)
      (run_states R count oe nr (or_empty fixed) (or_empty excluded)).
Proof.
  destruct (run_invariant R count oe nr (or_empty fixed) (or_empty excluded))
    as (s & E & _).
  exists (results s). split; [now apply generate_of_run|].
  now apply loop_states_prefix.
Qed.

(** X7.  With exactly 6 fixed numbers the only candidate is the sorted list
    of the fixed numbers: [generate_lotto_numbers] returns that one
    combination when it passes [is_valid] and [count >= 1], and an empty
    result set otherwise, whatever [count] asks for. *)
Theorem generate_six_fixed (R : Random) (count : Z) (oe nr : bool)
    (fixed excluded : option (list Z)) :
  len (or_empty fixed) = 6 ->
  generate_lotto_numbers R count oe nr fixed excluded =
  inr (if is_valid (or_empty fixed) oe nr && (1 <=? count)
       then [sorted (or_empty fixed)] else []).
Proof.
  intros Hf.
  destruct (run_valid R count oe nr (or_empty fixed) (or_empty excluded))
    as (s & E & V & _).
  destruct (run_invariant R count oe nr (or_empty fixed) (or_empty excluded))
    as (s' & E' & (C & D & _) & _).
  rewrite (run_final_unique _ _ _ _ _ _ _ _ E' E) in C, D. clear s' E'.
  rewrite (generate_of_run _ _ _ _ _ _ _ E). f_equal.
  assert (Forall (eq (sorted (or_empty fixed))) (results s)) as Heq.
  { eapply Forall_impl; [| exact C]. intros c (_ & rp & Hs & ->).
    rewrite Hf in Hs. apply empty_sample in Hs. subst rp.
    now rewrite app_nil_r. }
  destruct (NoDup_all_equal _ _ D Heq) as [Hr | Hr].
  - destruct (is_valid (or_empty fixed) oe nr) eqn:Hv; [| exact Hr].
    destruct (Z.leb_spec 1 count) as [Hc | Hc]; [| exact Hr]. exfalso.
    destruct (run_first_accepted R count oe nr (or_empty fixed)
                (or_empty excluded)) as (s' & rest & E' & Hres).
    + exact Hc.
    + lia.
    + pose proof (len_nonneg (candidates_pool (or_empty fixed)
                                (or_empty excluded))). lia.
    + rewrite Hf. change (Z.to_nat (6 - 6)) with 0%nat.
      rewrite (empty_sample _ _ (draw_sample R _ _ 0%nat (Nat.le_0_l _))).
      rewrite app_nil_r, is_valid_sorted. exact Hv.
    + rewrite (run_final_unique _ _ _ _ _ _ _ _ E' E) in Hres. congruence.
  - rewrite Hr in V. inversion V as [|? ? Hv _]; subst.
    rewrite is_valid_sorted in Hv. rewrite Hv.
    destruct (Z.leb_spec 1 count) as [Hc | Hc]; [exact Hr|]. exfalso.
    destruct (run_no_count R count oe nr (or_empty fixed) (or_empty excluded))
      as [E' _]; [lia|].
    rewrite E in E'. injection E' as ->. discriminate Hr.
Qed.

Lemma generate_six_fixed_witness :
  generate_lotto_numbers Lcg.source 3 true true (Some [1; 2; 3; 4; 5; 7]) None =
  inr (if is_valid [1; 2; 3; 4; 5; 7] true true && (1 <=? 3)
       then [sorted [1; 2; 3; 4; 5; 7]] else []).
Proof.
  apply (generate_six_fixed Lcg.source 3 true true
           (Some [1; 2; 3; 4; 5; 7]) None).
  reflexivity.
Defined.

(** X8.  With both rules off, at most 6 fixed numbers, enough candidates
    and [count >= 1], the first combination drawn is accepted: the result
    set is not empty and starts with the fixed numbers and the first
    sample, sorted. *)
Theorem generate_no_rules_first_accepted (R : Random) (count : Z)
    (fixed excluded : option (list Z)) :
  1 <= count ->
  len (or_empty fixed) <= 6 ->
  6 - len (or_empty fixed)
    <= len (candidates_pool (or_empty fixed) (or_empty excluded)) ->
  exists rest,
    generate_lotto_numbers R count false false fixed excluded =
    inr (sorted (or_empty fixed ++
                 draw R 0 (candidates_pool (or_empty fixed) (or_empty excluded))
                   (Z.to_nat (6 - len (or_empty fixed)))) :: rest).
Proof.
  intros Hc Hf Hp.
  destruct (run_first_accepted R count false false (or_empty fixed)
              (or_empty excluded) Hc Hf Hp) as (s & rest & E & Hres);
    [reflexivity|].
  exists rest. rewrite (generate_of_run _ _ _ _ _ _ _ E). now rewrite Hres.
Qed.

Lemma generate_no_rules_first_accepted_witness :
  exists rest,
    generate_lotto_numbers Lcg.source 1 false false (Some [7]) (Some [7]) =
    inr (sorted ([7] ++ draw Lcg.source 0 (candidates_pool [7] [7])
                          (Z.to_nat (6 - len [7]))) :: rest).
Proof.
  apply (generate_no_rules_first_accepted Lcg.source 1 (Some [7]) (Some [7])).
  - discriminate.
  - discriminate.
  - discriminate.
Defined.

(** X9.  A run calls [random.sample] at most once per pass of the loop, so
    at most 10000 times, and at least once for each combination it
    returns. *)
Theorem generate_sample_calls (R : Random) (count : Z) (oe nr : bool)
    (fixed excluded : option (list Z)) :
  exists s,
    run R count oe nr (or_empty fixed) (or_empty excluded) = inr s /\
    generate_lotto_numbers R count oe nr fixed excluded = inr (results s) /\
    len (results s) <= Z.of_nat (calls s) /\
    Z.of_nat (calls s)
      <= Z.of_nat (attempts R count oe nr (or_empty fixed) (or_empty excluded)) /\
    Z.of_nat (attempts R count oe nr (or_empty fixed) (or_empty excluded))
      <= 10000.
Proof.
  destruct (run_valid R count oe nr (or_empty fixed) (or_empty excluded))
    as (s & E & _ & L).
  destruct (run_invariant R count oe nr (or_empty fixed) (or_empty excluded))
    as (s' & E' & (_ & _ & _ & B & K) & _).
  rewrite (run_final_unique _ _ _ _ _ _ _ _ E' E) in B, K.
  pose proof (run_attempts _ _ _ _ _ _ s E) as A.
  exists s. repeat split; trivial; try lia.
  now apply generate_of_run.
Qed.

(** ** The parser of the number inputs *)

Module Parsing.

Import Ascii String.
Local Open Scope Z_scope.

(** The numbers a part adds to [nums] when [int] does not raise. *)
Definition part_numbers (part : string) : list Z :=
  if Str.isdigit part then
    let n := Str.digits_value 0 part in
    if (1 <=? n) && (n <=? 45) then [n] else []
  else [].

Lemma parse_parts_spec (m : Z) (parts : list string) : forall nums,
  parse_parts m parts nums =
  if existsb (raises_on m) parts then inl ValueError
  else inr (nums ++ flat_map part_numbers parts).
Proof.
  induction parts as [|part parts IH]; intros nums; simpl.
  - now rewrite app_nil_r.
  - unfold raises_on at 1, part_numbers at 1.
    destruct (Str.isdigit part) eqn:D; cbn [andb orb]; [| apply IH].
    unfold Str.int. destruct part as [|c part]; [discriminate D|].
    destruct (Str.all Str.is_decimal (String c part)
              && negb (Str.over_limit m (String c part))); cbn [negb orb];
      [| reflexivity].
    destruct ((1 <=? _) && (_ <=? 45)); rewrite IH;
      destruct (existsb _ parts); trivial.
    now rewrite <- app_assoc.
Qed.

Lemma parse_numbers_spec (m : Z) (text : string) :
  parse_numbers m text =
  if existsb (raises_on m) (parts_of text) then inl ValueError
  else inr (sorted (set_of (flat_map part_numbers (parts_of text)))).
Proof.
  unfold parse_numbers. fold (parts_of text). rewrite parse_parts_spec.
  now destruct (existsb _ _).
Qed.

Lemma part_numbers_In (part : string) (n : Z) :
  In n (part_numbers part) <-> 1 <= n <= 45 /\ writes part n.
Proof.
  unfold part_numbers, writes. destruct (Str.isdigit part).
  - cbv zeta. destruct (Z.leb_spec 1 (Str.digits_value 0 part));
      destruct (Z.leb_spec (Str.digits_value 0 part) 45); simpl;
      intuition (subst; try lia).
  - simpl. intuition discriminate.
Qed.

Lemma sorted_set_of_strict (nums : list Z) :
  StronglySorted Z.lt (sorted (set_of nums)).
Proof.
  apply ascending_strict; [apply sorted_ascending|].
  eapply Permutation_NoDup; [apply sorted_Permutation | apply NoDup_nodup].
Qed.

Lemma sorted_set_of_In (nums : list Z) (n : Z) :
  In n (sorted (set_of nums)) <-> In n nums.
Proof. unfold set_of. now rewrite sorted_In, nodup_In. Qed.

(** A strictly ascending list within [lo, hi] has at most [hi + 1 - lo]
    members. *)
Lemma strict_length (l : list Z) : forall lo hi,
  StronglySorted Z.lt l -> Forall (fun n => lo <= n <= hi) l ->
  len l <= Z.max 0 (hi + 1 - lo).
Proof.
  induction l as [|x l IH]; intros lo hi S F; [unfold len; simpl; lia|].
  inversion S as [|? ? S' Hx]; subst. inversion F as [|? ? Hb F']; subst.
  assert (Forall (fun n => x + 1 <= n <= hi) l) as F''.
  { rewrite Forall_forall in *. intros n Hn.
    specialize (Hx n Hn). specialize (F' n Hn). lia. }
  specialize (IH (x + 1) hi S' F''). unfold len in *. simpl List.length. lia.
Qed.

Lemma parse_numbers_strict (m : Z) (text : string) (nums : list Z) :
  parse_numbers m text = inr nums ->
  StronglySorted Z.lt nums /\ NoDup nums /\
  Forall (fun n => 1 <= n <= 45) nums.
Proof.
  rewrite parse_numbers_spec. destruct (existsb _ _); [discriminate|].
  intros [= <-]. split; [apply sorted_set_of_strict|]. split.
  - eapply Permutation_NoDup; [apply sorted_Permutation | apply NoDup_nodup].
  - rewrite Forall_forall. intros n Hn.
    apply sorted_set_of_In, in_flat_map in Hn as (part & _ & Hn).
    now apply part_numbers_In in Hn.
Qed.

(** X10.  When [parse_numbers] returns, its list is strictly ascending, so
    sorted and without repetition, within [1, 45], and has at most 45
    members: it is a list of fixed numbers as the generator expects it. *)
Theorem parse_numbers_well_formed (m : Z) (text : string) (nums : list Z) :
  parse_numbers m text = inr nums ->
  StronglySorted Z.lt nums /\ NoDup nums /\
  Forall (fun n => 1 <= n <= 45) nums /\ len nums <= 45.
Proof.
  intros E. destruct (parse_numbers_strict m text nums E) as (S & D & F).
  repeat split; trivial. apply (strict_length _ 1 45 S F).
Qed.

Lemma parse_numbers_well_formed_witness :
  StronglySorted Z.lt [7; 12; 13] /\ NoDup [7; 12; 13] /\
  Forall (fun n => 1 <= n <= 45) [7; 12; 13] /\ len [7; 12; 13] <= 45.
Proof.
  apply (parse_numbers_well_formed 4300 "13,7 , 7,46,0, 007,abc,+5,,1 2,"%string).
  reflexivity.
Defined.

(** X11.  When [parse_numbers] returns, a number is in its list exactly when
    it is within [1, 45] and one of the parts of the text, split at the
    commas after the spaces are taken out, is a string of digits that
    writes it; everything else in the text is dropped silently. *)
Theorem parse_numbers_members (m : Z) (text : string) (nums : list Z) :
  parse_numbers m text = inr nums ->
  forall n,
    In n nums <->
    1 <= n <= 45 /\ exists part, In part (parts_of text) /\ writes part n.
Proof.
  rewrite parse_numbers_spec. destruct (existsb _ _); [discriminate|].
  intros [= <-] n. rewrite sorted_set_of_In, in_flat_map. split.
  - intros (part & Hp & Hn). apply part_numbers_In in Hn. split; [tauto|].
    exists part. tauto.
  - intros (Hr & part & Hp & Hw). exists part. split; [exact Hp|].
    now apply part_numbers_In.
Qed.

Lemma parse_numbers_members_witness :
  In 7 [7; 13] <->
  1 <= 7 <= 45 /\
  exists part, In part (parts_of "13, 7, 007, 99"%string) /\ writes part 7.
Proof.
  apply (parse_numbers_members 4300 "13, 7, 007, 99"%string [7; 13]).
  reflexivity.
Defined.

(** X12.  [parse_numbers] raises [ValueError] exactly when some part of the
    text passes [isdigit] and [int] refuses it: a part with a superscript
    digit, or a part of digits longer than the limit of the interpreter. *)
Theorem parse_numbers_raises (m : Z) (text : string) :
  parse_numbers m text = inl ValueError <->
  exists part,
    In part (parts_of text) /\ Str.isdigit part = true /\
    (Str.all Str.is_decimal part = false \/ Str.over_limit m part = true).
Proof.
  rewrite parse_numbers_spec.
  destruct (existsb (raises_on m) (parts_of text)) eqn:E.
  - split; [intros _ | reflexivity].
    apply existsb_exists in E as (part & Hp & Hr). exists part.
    unfold raises_on in Hr. apply andb_true_iff in Hr as [D Hr].
    split; [exact Hp|]. split; [exact D|].
    destruct (Str.all Str.is_decimal part); [| now left].
    destruct (Str.over_limit m part); [now right | discriminate Hr].
  - split; [discriminate|]. intros (part & Hp & D & H). exfalso.
    assert (existsb (raises_on m) (parts_of text) = true) as E';
      [| congruence].
    apply existsb_exists. exists part. split; [exact Hp|].
    unfold raises_on. rewrite D.
    destruct H as [-> | ->]; [reflexivity|].
    now rewrite andb_false_r.
Qed.

Lemma all_forallb (f : ascii -> bool) (s : string) :
  Str.all f s = forallb f (chars s).
Proof. induction s as [|c s IH]; simpl; [reflexivity | now rewrite IH]. Qed.

Lemma chars_append (a b : string) : chars (a ++ b)%string = chars a ++ chars b.
Proof. induction a as [|c a IH]; simpl; [reflexivity | now rewrite IH]. Qed.

Lemma split_nonempty (sep : ascii) (s : string) : Str.split sep s <> [].
Proof.
  destruct s as [|c s]; simpl; [discriminate|].
  destruct (Ascii.eqb c sep); [discriminate|].
  destruct (Str.split sep s); discriminate.
Qed.

(** Splitting a text with a separator in the middle. *)
Lemma split_append (sep : ascii) (a b : string) :
  Str.split sep (a ++ String sep b)%string = Str.split sep a ++ Str.split sep b.
Proof.
  induction a as [|c a IH]; simpl.
  - now rewrite Ascii.eqb_refl.
  - rewrite IH. destruct (Ascii.eqb c sep); [reflexivity|].
    pose proof (split_nonempty sep a).
    destruct (Str.split sep a); [contradiction | reflexivity].
Qed.

Lemma remove_append (old : ascii) (a b : string) :
  Str.remove old (a ++ b)%string = (Str.remove old a ++ Str.remove old b)%string.
Proof.
  induction a as [|c a IH]; simpl; [reflexivity|].
  rewrite IH. now destruct (Ascii.eqb c old).
Qed.

Lemma parts_of_comma (a b : string) :
  parts_of (a ++ String Str.comma b)%string = parts_of a ++ parts_of b.
Proof.
  unfold parts_of. rewrite remove_append.
  change (Str.remove Str.space (String Str.comma b))
    with (String Str.comma (Str.remove Str.space b)).
  apply split_append.
Qed.

Lemma parts_of_space (a b : string) :
  parts_of (a ++ String Str.space b)%string = parts_of (a ++ b)%string.
Proof.
  unfold parts_of. rewrite !remove_append.
  now change (Str.remove Str.space (String Str.space b))
    with (Str.remove Str.space b).
Qed.

(** The parts are made of characters of the text and are no longer. *)
Lemma split_chars (sep : ascii) (s : string) : forall part,
  In part (Str.split sep s) ->
  incl (chars part) (chars s) /\
  (List.length (chars part) <= List.length (chars s))%nat.
Proof.
  induction s as [|c s IH]; intros part; simpl.
  - intros [<- | []]. split; [apply incl_refl | reflexivity].
  - destruct (Ascii.eqb c sep).
    + intros [<- | H].
      * split; [intros x [] | simpl; lia].
      * destruct (IH _ H) as [I L]. split; [now apply incl_tl | lia].
    + pose proof (split_nonempty sep s) as N.
      destruct (Str.split sep s) as [|p ps]; [contradiction|].
      intros [<- | H].
      * destruct (IH p (or_introl eq_refl)) as [I L]. split.
        -- change (chars (String c p)) with (c :: chars p).
           apply incl_cons; [now left | now apply incl_tl].
        -- simpl. lia.
      * destruct (IH part (or_intror H)) as [I L].
        split; [now apply incl_tl | lia].
Qed.

Lemma remove_chars (old : ascii) (s : string) :
  incl (chars (Str.remove old s)) (chars s) /\
  (List.length (chars (Str.remove old s)) <= List.length (chars s))%nat.
Proof.
  induction s as [|c s [I L]]; simpl.
  - split; [apply incl_refl | reflexivity].
  - destruct (Ascii.eqb c old).
    + split; [now apply incl_tl | lia].
    + split; [| simpl; lia].
      change (chars (String c (Str.remove old s)))
        with (c :: chars (Str.remove old s)).
      apply incl_cons; [now left | now apply incl_tl].
Qed.

Lemma parts_of_chars (text part : string) :
  In part (parts_of text) ->
  incl (chars part) (chars text) /\ len (chars part) <= len (chars text).
Proof.
  intros H. apply split_chars in H as [I L].
  destruct (remove_chars Str.space text) as [I' L'].
  split; [eapply incl_tran; eassumption | unfold len; lia].
Qed.

(** X13.  [parse_numbers] returns normally on every text of at most 640
    characters without a superscript digit (the characters that [isdigit]
    accepts and [int] refuses), whatever the limit of the interpreter; so
    on every such text in plain ASCII. *)
Theorem parse_numbers_returns (m : Z) (text : string) :
  Forall (fun c => Str.is_digit c = Str.is_decimal c) (chars text) ->
  len (chars text) <= 640 ->
  exists nums, parse_numbers m text = inr nums.
Proof.
  intros Hc Hl. rewrite parse_numbers_spec.
  destruct (existsb (raises_on m) (parts_of text)) eqn:E; [| eauto].
  exfalso. apply existsb_exists in E as (part & Hp & Hr).
  apply parts_of_chars in Hp as [I L].
  unfold raises_on in Hr. apply andb_true_iff in Hr as [D Hr].
  assert (Str.all Str.is_decimal part = true) as Hd.
  { destruct part as [|c part]; [discriminate D|].
    unfold Str.isdigit in D. rewrite all_forallb in *.
    rewrite forallb_forall in *. intros x Hx.
    rewrite Forall_forall in Hc. rewrite <- (Hc x (I x Hx)). now apply D. }
  assert (Str.over_limit m part = false) as Ho.
  { unfold Str.over_limit. fold (chars part).
    destruct (Z.ltb_spec 640 (len (chars part))); [lia | reflexivity]. }
  rewrite Hd, Ho in Hr. discriminate Hr.
Qed.

Lemma parse_numbers_returns_witness :
  exists nums, parse_numbers 4300 "7, 13, x, 46"%string = inr nums.
Proof.
  apply (parse_numbers_returns 4300 "7, 13, x, 46"%string).
  - repeat constructor.
  - discriminate.
Defined.

(** X14.  The order of the parts of the text does not matter to
    [parse_numbers]: exchanging what stands before and after a comma gives
    the same list, or [ValueError] in both cases. *)
Theorem parse_numbers_order (m : Z) (a b : string) :
  parse_numbers m (a ++ String Str.comma b)%string =
  parse_numbers m (b ++ String Str.comma a)%string.
Proof.
  rewrite !parse_numbers_spec, !parts_of_comma, !existsb_app, !flat_map_app.
  rewrite (orb_comm (existsb _ (parts_of a))).
  destruct (existsb _ (parts_of b) || existsb _ (parts_of a)); [reflexivity|].
  f_equal. apply sorted_unique. unfold set_of.
  apply NoDup_Permutation; try apply NoDup_nodup.
  intros n. rewrite !nodup_In, !in_app_iff. tauto.
Qed.

(** X15.  Spaces are taken out before the text is split, wherever they
    stand: a space between two digits joins them into one number, so that
    [1 3] is read as 13. *)
Theorem parse_numbers_spaces (m : Z) (a b : string) :
  parse_numbers m (a ++ String Str.space b)%string =
  parse_numbers m (a ++ b)%string.
Proof. now rewrite !parse_numbers_spec, parts_of_space. Qed.

End Parsing.

(** ** The script *)

Module Script.

Import Ascii String.
Local Open Scope Z_scope.

Lemma ui_bind_returned {A B : Type} (x : ui A) (f : A -> ui B)
    (out out' : list shown) (a : A) (r : fault + B) :
  x = (out, inr a) -> f a = (out', r) -> ui_bind x f = (out ++ out', r).
Proof. intros -> E. unfold ui_bind. now rewrite E. Qed.

Lemma range_cons (lo hi : Z) :
  lo < hi -> range lo hi = lo :: range (lo + 1) hi.
Proof.
  intros H. unfold range.
  replace (Z.to_nat (hi - lo)) with (S (Z.to_nat (hi - (lo + 1)))) by lia.
  simpl seq. simpl map. f_equal; [lia|].
  rewrite <- seq_shift, map_map. apply map_ext. intros i. lia.
Qed.

Lemma range_empty (lo : Z) : range lo lo = [].
Proof. unfold range. now rewrite Z.sub_diag. Qed.

(** The columns suffice for a list that ends at the sixth. *)
Lemma show_numbers_cells (nums : list Z) : forall i,
  0 <= i -> i + len nums <= 6 ->
  show_numbers i nums =
  (map (fun p => number (fst p) (snd p))
     (combine (range i (i + len nums)) nums), inr tt).
Proof.
  induction nums as [|n nums IH]; intros i Hi Hl.
  - simpl. now destruct (range i (i + len [])).
  - assert (len (n :: nums) = 1 + len nums) as L by (unfold len; cbn [List.length]; lia).
    rewrite L in *. pose proof (len_nonneg nums).
    cbn [show_numbers]. destruct (Z.ltb_spec i 6); [| lia].
    rewrite range_cons by lia. cbn [combine map fst snd].
    erewrite ui_bind_returned; [| reflexivity | apply IH; lia].
    cbn [app]. now replace (i + 1 + len nums) with (i + (1 + len nums)) by lia.
Qed.

Lemma show_sets_tickets (res : list (list Z)) : forall idx,
  Forall (fun c => List.length c = 6%nat) res ->
  show_sets idx res =
  (flat_map (fun p => set_title (fst p) :: cells (snd p))
     (combine (range idx (idx + len res)) res), inr tt).
Proof.
  induction res as [|nums res IH]; intros idx F.
  - simpl. now destruct (range idx (idx + len [])).
  - inversion F as [|? ? Hn F']; subst.
    assert (len (nums :: res) = 1 + len res) as L by (unfold len; cbn [List.length]; lia).
    rewrite L. pose proof (len_nonneg res).
    cbn [show_sets]. rewrite range_cons by lia.
    cbn [combine flat_map fst snd].
    erewrite ui_bind_returned; [| reflexivity |].
    2:{ erewrite ui_bind_returned;
          [reflexivity | apply show_numbers_cells; unfold len; lia
          | apply (IH (idx + 1) F')]. }
    unfold cells. cbn [app]. rewrite Z.add_0_l.
    now replace (idx + 1 + len res) with (idx + (1 + len res)) by lia.
Qed.

Lemma show_conflict_returns (fixed_numbers excluded_numbers : list Z) :
  show_conflict fixed_numbers excluded_numbers =
  (fst (show_conflict fixed_numbers excluded_numbers), inr tt).
Proof.
  unfold show_conflict. cbv zeta.
  now destruct (conflict fixed_numbers excluded_numbers).
Qed.

Lemma conflict_In (fixed_numbers excluded_numbers : list Z) (n : Z) :
  In n (conflict fixed_numbers excluded_numbers) <->
  In n fixed_numbers /\ In n excluded_numbers.
Proof.
  unfold conflict, set_of. now rewrite nodup_In, filter_In, contains_In.
Qed.

(** The combinations generated from parsed inputs. *)
Lemma generate_from_parsed (R : Random) (m games : Z) (oe nr : bool)
    (fixed_input excluded_input : string) (F E : list Z) :
  parse_numbers m fixed_input = inr F ->
  parse_numbers m excluded_input = inr E ->
  exists res,
    generate_lotto_numbers R games oe nr (Some F) (Some E) = inr res /\
    Forall (combination_of F E) res /\
    Forall (fun c => Sorted Z.le c /\ List.length c = 6%nat /\ NoDup c /\
                     Forall (fun n => 1 <= n <= 45) c /\ incl F c) res.
Proof.
  intros HF HE.
  destruct (Parsing.parse_numbers_strict m _ _ HF) as (_ & D & In45).
  destruct (generate_combinations R games oe nr (Some F) (Some E))
    as (res & G & C).
  exists res. split; [exact G|]. split; [exact C|].
  eapply Forall_impl; [| exact C]. intros c Hc. repeat split.
  - eapply combination_ascending; exact Hc.
  - eapply combination_length; exact Hc.
  - eapply combination_NoDup; eassumption.
  - eapply combination_range; eassumption.
  - intros x Hx. eapply combination_fixed; eassumption.
Qed.

Lemma main_parsed (R : Random) (m games : Z) (oe nr : bool)
    (fixed_input excluded_input : string) (button : bool) (F E : list Z)
    (res : list (list Z)) :
  parse_numbers m fixed_input = inr F ->
  parse_numbers m excluded_input = inr E ->
  generate_lotto_numbers R games oe nr (Some F) (Some E) = inr res ->
  Forall (fun c => List.length c = 6%nat) res ->
  main R m games oe nr fixed_input excluded_input button =
  (output F E button res, inr tt).
Proof.
  intros HF HE G L. unfold main, output. rewrite HF, HE.
  apply (ui_bind_returned _ _ [] _ F); [reflexivity|].
  apply (ui_bind_returned _ _ [] _ E); [reflexivity|].
  eapply ui_bind_returned; [apply show_conflict_returns|].
  destruct button; [| reflexivity].
  rewrite Z.gtb_ltb. destruct (6 <? len F); [reflexivity|].
  rewrite G. apply (ui_bind_returned _ _ [] _ res); [reflexivity|].
  destruct res as [|c res]; [reflexivity|].
  apply (ui_bind_returned _ _ [success (len (c :: res))] _ tt);
    [reflexivity|].
  unfold tickets. now rewrite show_sets_tickets.
Qed.

(** X16.  A run of the script ends normally when both text inputs parse,
    and with the [ValueError] of [parse_numbers] otherwise: it never raises
    [IndexError] at [cols[i]], and the generator raises nothing. *)
Theorem main_raises_only_value_error (R : Random) (m games : Z)
    (oe nr : bool) (fixed_input excluded_input : string) (button : bool) :
  snd (main R m games oe nr fixed_input excluded_input button) =
  match parse_numbers m fixed_input, parse_numbers m excluded_input with
  | inr _, inr _ => inr tt
  | _, _ => inl (Raised ValueError)
  end.
Proof.
  destruct (parse_numbers m fixed_input) as [[]|F] eqn:HF.
  { unfold main. now rewrite HF. }
  destruct (parse_numbers m excluded_input) as [[]|E] eqn:HE.
  { unfold main. now rewrite HF, HE. }
  destruct (generate_from_parsed R m games oe nr _ _ F E HF HE)
    as (res & G & _ & W).
  rewrite (main_parsed R m games oe nr _ _ button F E res HF HE G);
    [reflexivity|].
  eapply Forall_impl; [| exact W]. intros c (_ & H & _). exact H.
Qed.

(** X17.  When both text inputs parse, the script first reports a conflict
    exactly when some number is in both lists, by one error that lists in
    ascending order the numbers that are in both, and shows no report
    otherwise.  Then, when the button was pressed, it shows the error for
    more than 6 fixed numbers, or else the warning when the generator
    returned nothing, or else the success message with the number of sets
    and every set in full: its title, numbered from 1, and each of its 6
    numbers in the column of its position.  It shows nothing more when the
    button was not pressed. *)
Theorem main_shows (R : Random) (m games : Z) (oe nr : bool)
    (fixed_input excluded_input : string) (button : bool) (F E : list Z) :
  parse_numbers m fixed_input = inr F ->
  parse_numbers m excluded_input = inr E ->
  exists report res,
    generate_lotto_numbers R games oe nr (Some F) (Some E) = inr res /\
    main R m games oe nr fixed_input excluded_input button =
    (report ++
     (if button then
        if 6 <? len F then [too_many_error]
        else match res with
             | [] => [no_result_warning]
             | _ :: _ => success (len res) :: tickets res
             end
      else []), inr tt) /\
    ((report = [] /\ forall x, In x F -> ~ In x E) \/
     (exists common,
        report = [conflict_error common] /\ common <> [] /\
        StronglySorted Z.lt common /\
        forall x, In x common <-> In x F /\ In x E)).
Proof.
  intros HF HE.
  destruct (generate_from_parsed R m games oe nr _ _ F E HF HE)
    as (res & G & _ & W).
  exists (fst (show_conflict F E)), res. split; [exact G|]. split.
  - rewrite (main_parsed R m games oe nr _ _ button F E res HF HE G);
      [reflexivity|].
    eapply Forall_impl; [| exact W]. intros c (_ & H & _). exact H.
  - unfold show_conflict. cbv zeta.
    destruct (conflict F E) as [|y l] eqn:Ec.
    + left. split; [reflexivity|]. intros x HxF HxE.
      assert (In x (conflict F E)) as H by now apply conflict_In.
      rewrite Ec in H. exact H.
    + right. exists (sorted (y :: l)). split; [reflexivity|].
      rewrite <- Ec. split; [| split].
      * intros H. assert (In y (sorted (conflict F E))) as Hy
          by (apply sorted_In; rewrite Ec; now left).
        rewrite H in Hy. exact Hy.
      * apply Parsing.sorted_set_of_strict.
      * intros x. rewrite sorted_In. apply conflict_In.
Qed.

Lemma main_shows_witness :
  exists report res,
    generate_lotto_numbers Lcg.source 2 true true (Some [7; 13]) (Some [7; 9])
      = inr res /\
    main Lcg.source 4300 2 true true "7, 13"%string "9, 7"%string true =
    (report ++
     (if true then
        if 6 <? len [7; 13] then [too_many_error]
        else match res with
             | [] => [no_result_warning]
             | _ :: _ => success (len res) :: tickets res
             end
      else []), inr tt) /\
    ((report = [] /\ forall x, In x [7; 13] -> ~ In x [7; 9]) \/
     (exists common,
        report = [conflict_error common] /\ common <> [] /\
        StronglySorted Z.lt common /\
        forall x, In x common <-> In x [7; 13] /\ In x [7; 9])).
Proof.
  apply (main_shows Lcg.source 4300 2 true true "7, 13"%string "9, 7"%string
           true [7; 13] [7; 9]); reflexivity.
Defined.

(** X18.  Whatever is typed in the two text inputs, as long as it parses,
    the generator called on the parsed lists returns combinations of 6
    different numbers of [1, 45] in ascending order that contain every
    parsed fixed number: the parser gives the generator the lists it
    needs. *)
Theorem parsed_inputs_generate_well_formed (R : Random) (m games : Z)
    (oe nr : bool) (fixed_input excluded_input : string) (F E : list Z) :
  parse_numbers m fixed_input = inr F ->
  parse_numbers m excluded_input = inr E ->
  exists res,
    generate_lotto_numbers R games oe nr (Some F) (Some E) = inr res /\
    Forall (fun c => Sorted Z.le c /\ List.length c = 6%nat /\ NoDup c /\
                     Forall (fun n => 1 <= n <= 45) c /\ incl F c) res.
Proof.
  intros HF HE.
  destruct (generate_from_parsed R m games oe nr _ _ F E HF HE)
    as (res & G & _ & W).
  now exists res.
Qed.

Lemma parsed_inputs_generate_well_formed_witness :
  exists res,
    generate_lotto_numbers Lcg.source 5 true true (Some [7; 13]) (Some [1; 2; 3])
      = inr res /\
    Forall (fun c => Sorted Z.le c /\ List.length c = 6%nat /\ NoDup c /\
                     Forall (fun n => 1 <= n <= 45) c /\ incl [7; 13] c) res.
Proof.
  apply (parsed_inputs_generate_well_formed Lcg.source 4300 5 true true
           "13, 7, 7"%string "3,2,1,x"%string [7; 13] [1; 2; 3]);
    reflexivity.
Defined.

(** X19.  A number typed both as fixed and as excluded is reported: the
    conflict error lists, in ascending order, exactly the numbers that are
    in both lists.  The report does not stop the script: with the button
    pressed and at most 6 fixed numbers the sets are generated and shown
    after it, and each of them contains that number. *)
Theorem main_conflict_goes_on (R : Random) (m games : Z) (oe nr : bool)
    (fixed_input excluded_input : string) (F E : list Z) (n : Z) :
  parse_numbers m fixed_input = inr F ->
  parse_numbers m excluded_input = inr E ->
  len F <= 6 ->
  In n F -> In n E ->
  exists common res,
    StronglySorted Z.lt common /\
    (forall x, In x common <-> In x F /\ In x E) /\
    generate_lotto_numbers R games oe nr (Some F) (Some E) = inr res /\
    Forall (In n) res /\
    main R m games oe nr fixed_input excluded_input true =
    (conflict_error common ::
     match res with
     | [] => [no_result_warning]
     | _ :: _ => success (len res) :: tickets res
     end, inr tt).
Proof.
  intros HF HE Hl HnF HnE.
  destruct (generate_from_parsed R m games oe nr _ _ F E HF HE)
    as (res & G & C & W).
  exists (sorted (conflict F E)), res.
  split; [apply Parsing.sorted_set_of_strict|].
  split; [intros x; rewrite sorted_In; apply conflict_In|].
  split; [exact G|]. split.
  - eapply Forall_impl; [| exact C]. intros c Hc.
    eapply combination_fixed; eassumption.
  - rewrite (main_parsed R m games oe nr _ _ true F E res HF HE G)
      by (eapply Forall_impl; [| exact W]; intros c (_ & H & _); exact H).
    unfold output, show_conflict. cbv zeta.
    destruct (conflict F E) as [|x l] eqn:Ec.
    + exfalso. assert (In n (conflict F E)) as H by now apply conflict_In.
      rewrite Ec in H. exact H.
    + destruct (Z.ltb_spec 6 (len F)); [lia | reflexivity].
Qed.

Lemma main_conflict_goes_on_witness :
  exists common res,
    StronglySorted Z.lt common /\
    (forall x, In x common <-> In x [7] /\ In x [7; 9]) /\
    generate_lotto_numbers Lcg.source 1 false false (Some [7]) (Some [7; 9])
      = inr res /\
    Forall (In 7) res /\
    main Lcg.source 4300 1 false false "7"%string "7, 9"%string true =
    (conflict_error common ::
     match res with
     | [] => [no_result_warning]
     | _ :: _ => success (len res) :: tickets res
     end, inr tt).
Proof.
  apply (main_conflict_goes_on Lcg.source 4300 1 false false
           "7"%string "7, 9"%string [7] [7; 9] 7).
  - reflexivity.
  - reflexivity.
  - discriminate.
  - now left.
  - now left.
Defined.

End Script.
